(** * compilers_are_fun: the expression parser and its code generator

    A shallow embedding of [parser.py] and [compiler.py].  Both files hold the
    same matcher classes ([Add], [Mul], [Paren], [Constant]), the same
    [naked_symbol_search] and the same [parse_expr]; they differ in
    [Paren.match] (only [compiler.py] checks that the interior is balanced)
    and in that only [compiler.py] has [codegen].

    Python strings are lists of (Latin-1) characters, integers are [Z], a
    call that may raise returns a [result], and [None] is [option]'s [None]. *)

From Stdlib Require Import Ascii String List ZArith Lia Bool.
From Stdlib Require Import Floats QArith Qcanon.
Import ListNotations.

Local Open Scope Z_scope.
Local Open Scope list_scope.

(** ** Python values the program handles *)

(** A string literal of the source, as the list of its characters. *)
Definition py (s : string) : list ascii := list_ascii_of_string s.

Definition dquote : ascii := "034"%char.

(** The exceptions the parser can end with.  [RecursionError] stands at the
    bottom of the fuel of [parse_expr_fuel]; [parse_expr] never reaches it
    (lemmas [parser_parse_expr_eq] and [compiler_parse_expr_eq]). *)
Inductive exn : Type :=
| ValueError (msg : list ascii)
| IndexError (msg : list ascii)
| RecursionError.

Inductive result (A : Type) : Type :=
| Return (a : A)
| Raise (e : exn).
Arguments Return {A} a.
Arguments Raise {A} e.

Definition bind {A B : Type} (m : result A) (k : A -> result B) : result B :=
  match m with
  | Return a => k a
  | Raise e => Raise e
  end.

Notation "x <- m ;; k" := (bind m (fun x => k))
  (at level 61, m at next level, right associativity).

(** [len(s)] *)
Definition len (s : list ascii) : Z := Z.of_nat (length s).

(** [s[i]]: a negative index counts from the end; out of range raises. *)
Definition getitem (s : list ascii) (i : Z) : result ascii :=
  let j := if i <? 0 then i + len s else i in
  if (j <? 0) || (len s <=? j) then Raise (IndexError (py "string index out of range"))
  else match nth_error s (Z.to_nat j) with
       | Some c => Return c
       | None => Raise (IndexError (py "string index out of range"))
       end.

(** A slice bound, as Python normalises it against the length [n]. *)
Definition clamp (n i : Z) : Z :=
  if i <? 0 then Z.max 0 (i + n) else Z.min i n.

(** [s[lo:hi]], a missing bound being [None]. *)
Definition slice (s : list ascii) (lo hi : option Z) : list ascii :=
  let n := len s in
  let a := match lo with None => 0 | Some i => clamp n i end in
  let b := match hi with None => n | Some i => clamp n i end in
  firstn (Z.to_nat (b - a)) (skipn (Z.to_nat a) s).

(** [x or y] on matcher results: an [Op] object is truthy, [None] is not, and
    [y] is evaluated only when [x] is [None]. *)
Definition por {A : Type} (x y : result (option A)) : result (option A) :=
  v <- x ;;
  match v with
  | Some _ => Return v
  | None => y
  end.

(** ** The builtin [float(s)]

    CPython's [float] on a string of Latin-1 characters: surrounding
    whitespace is dropped, single underscores between digits are dropped, and
    what remains must be, after an optional sign, [inf], [infinity], [nan]
    (in any case) or a decimal number with an optional exponent.  The value is
    the binary64 number nearest to the decimal ([SpecFloat]'s rounding to
    nearest even).  [None] stands for the [ValueError] that [float] raises. *)
Module Py.

Definition code (c : ascii) : Z := Z.of_N (N_of_ascii c).

Definition is_digit (c : ascii) : bool := (48 <=? code c) && (code c <=? 57).

Definition digit_value (c : ascii) : Z := code c - 48.

(** The characters [float] strips: C's [isspace], and the two Latin-1 spaces
    that the conversion to ASCII turns into a blank. *)
Definition float_space (c : ascii) : bool :=
  ((9 <=? code c) && (code c <=? 13)) || (code c =? 32)
  || (code c =? 133) || (code c =? 160).

(** The characters the pattern [\s] matches on a Latin-1 string. *)
Definition re_space (c : ascii) : bool :=
  float_space c || ((28 <=? code c) && (code c <=? 31)).

Definition lower (c : ascii) : ascii :=
  if (65 <=? code c) && (code c <=? 90)
  then ascii_of_N (N_of_ascii c + 32) else c.

Fixpoint lstrip (s : list ascii) : list ascii :=
  match s with
  | c :: r => if float_space c then lstrip r else s
  | [] => []
  end.

Fixpoint rstrip (s : list ascii) : list ascii :=
  match s with
  | c :: r =>
      match rstrip r with
      | [] => if float_space c then [] else [c]
      | r' => c :: r'
      end
  | [] => []
  end.

Definition strip (s : list ascii) : list ascii := rstrip (lstrip s).

(** Digit-group underscores: one is allowed only between two digits.
    [prev] is the character before [s]. *)
Fixpoint drop_underscores (prev : ascii) (s : list ascii) : option (list ascii) :=
  match s with
  | [] => if Ascii.eqb prev "_" then None else Some []
  | c :: r =>
      if Ascii.eqb c "_" then
        if is_digit prev then drop_underscores c r else None
      else if Ascii.eqb prev "_" && negb (is_digit c) then None
      else option_map (cons c) (drop_underscores c r)
  end.

(** The longest prefix of digits, and the rest. *)
Fixpoint span_digits (s : list ascii) : list ascii * list ascii :=
  match s with
  | c :: r =>
      if is_digit c then let (d, t) := span_digits r in (c :: d, t)
      else ([], s)
  | [] => ([], [])
  end.

Definition digits_value (ds : list ascii) : Z :=
  fold_left (fun acc c => 10 * acc + digit_value c) ds 0.

(** An optional sign, and what follows it: [(negative, rest)]. *)
Definition split_sign (s : list ascii) : bool * list ascii :=
  match s with
  | c :: r =>
      if Ascii.eqb c "+" then (false, r)
      else if Ascii.eqb c "-" then (true, r)
      else (false, s)
  | [] => (false, [])
  end.

(** What follows the mantissa: nothing, or [e], an optional sign and at
    least one digit. *)
Definition parse_exponent (s : list ascii) : option Z :=
  match s with
  | [] => Some 0
  | c :: r =>
      if Ascii.eqb (lower c) "e" then
        let (neg, r') := split_sign r in
        match span_digits r' with
        | ((_ :: _) as ds, []) => Some (if neg then - digits_value ds else digits_value ds)
        | _ => None
        end
      else None
  end.

(** The digits after the point, if there is a point, and what follows. *)
Definition fraction (s : list ascii) : list ascii * list ascii :=
  match s with
  | c :: t => if Ascii.eqb c "." then span_digits t else ([], s)
  | [] => ([], [])
  end.

(** An unsigned decimal number as [(m, e)], its value being [m * 10 ^ e]. *)
Definition parse_number (s : list ascii) : option (Z * Z) :=
  let (ip, r) := span_digits s in
  let (fp, r') := fraction r in
  match ip ++ fp with
  | [] => None
  | ds =>
      match parse_exponent r' with
      | Some e => Some (digits_value ds, e - len fp)
      | None => None
      end
  end.

(** The binary64 number nearest to [m * 10 ^ e], for [0 <= m]. *)
Definition round_decimal (m e : Z) : spec_float :=
  match m with
  | Z0 => S754_zero false
  | Zpos _ =>
      if 0 <=? e then binary_normalize prec emax (m * 10 ^ e) 0 false
      else
        let '(q, e', l) := SFdiv_core_binary prec emax m 0 (10 ^ (- e)) 0 in
        binary_round_aux prec emax false q e' l
  | Zneg _ => S754_nan
  end.

Fixpoint same_text (a b : list ascii) : bool :=
  match a, b with
  | [], [] => true
  | x :: a', y :: b' => Ascii.eqb x y && same_text a' b'
  | _, _ => false
  end.

Definition float_of_str (s : list ascii) : option float :=
  match drop_underscores "000" (strip s) with
  | None => None
  | Some t =>
      let (neg, body) := split_sign t in
      let word := map lower body in
      let signed (x : spec_float) := SF2Prim (if neg then SFopp x else x) in
      if same_text word (py "inf") then Some (signed (S754_infinity false))
      else if same_text word (py "infinity") then Some (signed (S754_infinity false))
      else if same_text word (py "nan") then Some nan
      else
        match parse_number body with
        | Some (m, e) => Some (signed (round_decimal m e))
        | None => None
        end
  end.

End Py.


(** ** The syntax tree

    [Paren.match] returns the tree of its interior, so no [Paren] object is
    ever built: a tree has [Add], [Mul] and [Constant] nodes only. *)
Inductive Op : Type :=
| Add (l_op r_op : Op)
| Mul (l_op r_op : Op)
| Constant (val : float).

(** ** [naked_symbol_search]

    The [for] loop over [enumerate(expr)]: [i] is the index of the head of
    [expr], and the result is [split_idx] ([-1] when the loop ends without a
    [break]). *)
Fixpoint naked_symbol_loop (targets : list ascii) (i paren_count : Z)
  (expr : list ascii) : Z :=
  match expr with
  | [] => -1
  | sym :: rest =>
      if Ascii.eqb sym "(" then naked_symbol_loop targets (i + 1) (paren_count + 1) rest
      else if Ascii.eqb sym ")" then naked_symbol_loop targets (i + 1) (paren_count - 1) rest
      else if existsb (Ascii.eqb sym) targets && (paren_count =? 0) then i
      else naked_symbol_loop targets (i + 1) paren_count rest
  end.

Definition naked_symbol_search (expr targets : list ascii) : Z :=
  naked_symbol_loop targets 0 0 expr.

(** ** The matchers

    Each [match] returns an [Op], returns [None], or raises.  [parse_expr] is
    the recursive call; it is tied by [parse_expr_fuel] below. *)
Section Matchers.

Variable parse_expr : list ascii -> result Op.

Definition Add_match (expr : list ascii) : result (option Op) :=
  let idx := naked_symbol_search expr ["+"%char] in
  if negb (idx =? -1) then
    let l_expr := slice expr None (Some idx) in
    let r_expr := slice expr (Some (idx + 1)) None in
    l <- parse_expr l_expr ;;
    r <- parse_expr r_expr ;;
    Return (Some (Add l r))
  else Return None.

Definition Mul_match (expr : list ascii) : result (option Op) :=
  let idx := naked_symbol_search expr ["*"%char] in
  if negb (idx =? -1) then
    let l_expr := slice expr None (Some idx) in
    let r_expr := slice expr (Some (idx + 1)) None in
    l <- parse_expr l_expr ;;
    r <- parse_expr r_expr ;;
    Return (Some (Mul l r))
  else Return None.

(** [Constant.match]: the [ValueError] of [float] is caught, giving [None]. *)
Definition Constant_match (expr : list ascii) : result (option Op) :=
  match Py.float_of_str expr with
  | Some val => Return (Some (Constant val))
  | None => Return None
  end.

(** [Paren.match] of [parser.py]: only the first and the last character are
    looked at. *)
Definition Paren_match_parser (expr : list ascii) : result (option Op) :=
  first <- getitem expr 0 ;;
  if Ascii.eqb first "(" then
    last <- getitem expr (-1) ;;
    if Ascii.eqb last ")" then
      op <- parse_expr (slice expr (Some 1) (Some (-1))) ;;
      Return (Some op)
    else Return None
  else Return None.

(** The balance loop of [compiler.py]'s [Paren.match]: the value of [count]
    when the loop ends, by exhaustion or by [break]. *)
Fixpoint paren_loop (count : Z) (interior : list ascii) : Z :=
  match interior with
  | [] => count
  | symb :: rest =>
      let count :=
        if Ascii.eqb symb "(" then count + 1
        else if Ascii.eqb symb ")" then count - 1
        else count in
      if count <? 0 then count else paren_loop count rest
  end.

(** [Paren.match] of [compiler.py]. *)
Definition Paren_match_compiler (expr : list ascii) : result (option Op) :=
  first <- getitem expr 0 ;;
  if Ascii.eqb first "(" then
    last <- getitem expr (-1) ;;
    if Ascii.eqb last ")" then
      let count := paren_loop 0 (slice expr (Some 1) (Some (-1))) in
      if count =? 0 then
        op <- parse_expr (slice expr (Some 1) (Some (-1))) ;;
        Return (Some op)
      else Return None
    else Return None
  else Return None.

End Matchers.

(** The message of the [ValueError] that [parse_expr] raises. *)
Definition could_not_parse (expr : list ascii) : list ascii :=
  py "Could not parse expr: " ++ [dquote] ++ expr ++ [dquote].

(** ** [parse_expr]

    The body of [parse_expr], over the file's [Paren.match] and the recursive
    call.  The four matchers are first called for [add_op], [mul_op],
    [paren_op] and [constant_op], which are never read, and then called again
    inside the [or] chain. *)
Definition parse_expr_body
  (Paren_match : (list ascii -> result Op) -> list ascii -> result (option Op))
  (parse_expr : list ascii -> result Op) (expr : list ascii) : result Op :=
  add_op <- Add_match parse_expr expr ;;
  mul_op <- Mul_match parse_expr expr ;;
  paren_op <- Paren_match parse_expr expr ;;
  constant_op <- Constant_match expr ;;
  op <- por (Add_match parse_expr expr)
          (por (Mul_match parse_expr expr)
             (por (Paren_match parse_expr expr) (Constant_match expr))) ;;
  match op with
  | None => Raise (ValueError (could_not_parse expr))
  | Some op => Return op
  end.

(** Every recursive call is on a strictly shorter string, so a fuel above
    the length of [expr] is never used up. *)
Fixpoint parse_expr_fuel
  (Paren_match : (list ascii -> result Op) -> list ascii -> result (option Op))
  (fuel : nat) (expr : list ascii) : result Op :=
  match fuel with
  | O => Raise RecursionError
  | S fuel => parse_expr_body Paren_match (parse_expr_fuel Paren_match fuel) expr
  end.

(** [parser.py] *)
Module parser.

Definition Paren_match := Paren_match_parser.

Definition parse_expr (expr : list ascii) : result Op :=
  parse_expr_fuel Paren_match (S (length expr)) expr.

End parser.

(** [compiler.py] *)
Module compiler.

Definition Paren_match := Paren_match_compiler.

Definition parse_expr (expr : list ascii) : result Op :=
  parse_expr_fuel Paren_match (S (length expr)) expr.

End compiler.

(** [cleanup_input]: [re.sub('\s+', '', inp)] drops every whitespace
    character. *)
Definition cleanup_input (inp : list ascii) : list ascii :=
  filter (fun c => negb (Py.re_space c)) inp.

(** ** Pretty-printing: [__str__]

    [float_str] is [str] on a float, which the interpreter supplies. *)
Section Str.

Variable float_str : float -> list ascii.

Fixpoint Op_str (op : Op) : list ascii :=
  match op with
  | Add l_op r_op => py "Add(" ++ Op_str l_op ++ py ", " ++ Op_str r_op ++ py ")"
  | Mul l_op r_op => py "Mul(" ++ Op_str l_op ++ py ", " ++ Op_str r_op ++ py ")"
  | Constant val => float_str val
  end.

End Str.

(** ** Code generation: [codegen]

    [irb] is the IR builder, a mutable object that the calls thread through:
    [irb.fadd] and [irb.fmul] append an instruction and return its value,
    [llvm_float_t(val)] builds a constant and leaves the builder alone. *)
Section Codegen.

Variables Value Builder : Type.
Variable llvm_float_t : float -> Value.
Variable fadd fmul : Value -> Value -> Builder -> Value * Builder.

Fixpoint codegen (op : Op) (irb : Builder) : Value * Builder :=
  match op with
  | Add l_op r_op =>
      let (lval, irb) := codegen l_op irb in
      let (rval, irb) := codegen r_op irb in
      fadd lval rval irb
  | Mul l_op r_op =>
      let (lval, irb) := codegen l_op irb in
      let (rval, irb) := codegen r_op irb in
      fmul lval rval irb
  | Constant val => (llvm_float_t val, irb)
  end.

End Codegen.

(** ** Notions the statements are about *)

(** What one character does to the nesting counter of both scans. *)
Definition bump (c : ascii) : Z :=
  if Ascii.eqb c "(" then 1 else if Ascii.eqb c ")" then -1 else 0.

(** The counter after the characters of [s], starting from zero. *)
Fixpoint depth (s : list ascii) : Z :=
  match s with
  | [] => 0
  | c :: r => bump c + depth r
  end.

(** Every [(] of [s] is closed in [s] and every [)] of [s] closes one. *)
Definition balanced (s : list ascii) : Prop :=
  depth s = 0 /\ forall n : nat, 0 <= depth (firstn n s).

(** The first and the last character of [expr] are a pair of parentheses
    that belong together. *)
Definition partners (expr : list ascii) : Prop :=
  exists interior, expr = "("%char :: interior ++ [")"%char] /\ balanced interior.

(** [r] is the least index with property [P], or [-1] when there is none. *)
Definition first_index (P : nat -> Prop) (r : Z) : Prop :=
  (r = -1 /\ forall i, ~ P i)
  \/ (exists i, r = Z.of_nat i /\ P i /\ forall j, (j < i)%nat -> ~ P j).

(** The counter when character [i] is seen: before or after the character
    itself has been counted. *)
Definition counter_before (expr : list ascii) (i : nat) : Z := depth (firstn i expr).
Definition counter_after (expr : list ascii) (i : nat) : Z := depth (firstn (S i) expr).

(** Character [i] is in the target set and is seen while the counter is zero. *)
Definition target_at_zero (counter : list ascii -> nat -> Z)
  (targets expr : list ascii) (i : nat) : Prop :=
  exists sym, nth_error expr i = Some sym /\ In sym targets /\ counter expr i = 0.

(** The same for a character that is not itself a parenthesis (for such a
    character the counter is the same before and after). *)
Definition naked_target (targets expr : list ascii) (i : nat) : Prop :=
  exists sym, nth_error expr i = Some sym /\ In sym targets
    /\ sym <> "("%char /\ sym <> ")"%char /\ depth (firstn i expr) = 0.

(** No [sym] of [s] stands outside parentheses. *)
Definition no_naked (sym : ascii) (s : list ascii) : Prop :=
  forall a b, s = a ++ sym :: b -> depth a <> 0.

(** A character that is neither an operator nor a parenthesis. *)
Definition plain_char (c : ascii) : Prop :=
  c <> "("%char /\ c <> ")"%char /\ c <> "+"%char /\ c <> "*"%char.

(** A character that is neither a parenthesis nor [*]: [float] accepts no
    string with another character. *)
Definition literal_char (c : ascii) : Prop :=
  c <> "("%char /\ c <> ")"%char /\ c <> "*"%char.

(** The strings [compiler.py] parses: literals that [float] accepts, joined
    by [+] and [*] and grouped by parentheses. *)
Inductive well_formed : list ascii -> Prop :=
| wf_literal s val :
    Py.float_of_str s = Some val -> Forall plain_char s -> well_formed s
| wf_group s : well_formed s -> well_formed ("("%char :: s ++ [")"%char])
| wf_add l r : well_formed l -> well_formed r -> well_formed (l ++ "+"%char :: r)
| wf_mul l r : well_formed l -> well_formed r -> well_formed (l ++ "*"%char :: r).

(** The tree [op] was built from exactly the characters of [s]: an operator
    node from its two operands and the operator between them, a group from
    its interior and the two parentheses, a constant from a whole string that
    [float] accepts. *)
Inductive consumes : Op -> list ascii -> Prop :=
| consumes_add l r sl sr :
    consumes l sl -> consumes r sr -> consumes (Add l r) (sl ++ "+"%char :: sr)
| consumes_mul l r sl sr :
    consumes l sl -> consumes r sr -> consumes (Mul l r) (sl ++ "*"%char :: sr)
| consumes_group op s :
    consumes op s -> consumes op ("("%char :: s ++ [")"%char])
| consumes_constant s val :
    Py.float_of_str s = Some val -> consumes (Constant val) s.

(** [parse_expr] without the four unused calls: the [or] chain alone. *)
Definition first_match
  (Paren_match : (list ascii -> result Op) -> list ascii -> result (option Op))
  (parse_expr : list ascii -> result Op) (expr : list ascii) : result Op :=
  op <- por (Add_match parse_expr expr)
          (por (Mul_match parse_expr expr)
             (por (Paren_match parse_expr expr) (Constant_match expr))) ;;
  match op with
  | None => Raise (ValueError (could_not_parse expr))
  | Some op => Return op
  end.

(** No variant matches [expr], whatever the recursive calls would do. *)
Definition no_variant_matches
  (Paren_match : (list ascii -> result Op) -> list ascii -> result (option Op))
  (expr : list ascii) : Prop :=
  (forall P, Add_match P expr = Return None)
  /\ (forall P, Mul_match P expr = Return None)
  /\ (forall P, Paren_match P expr = Return None)
  /\ Constant_match expr = Return None.

(** The text of an exception. *)
Definition message (e : exn) : list ascii :=
  match e with
  | ValueError msg => msg
  | IndexError msg => msg
  | RecursionError => []
  end.

(** *** Valid expressions and their standard value

    A sum is one or more products separated by [+], a product one or more
    atoms separated by [*], an atom a numeral or a sum in parentheses: the
    grammar in which [*] binds tighter than [+]. *)
Inductive sum : Type :=
| SumLast (p : product)
| SumCons (p : product) (rest : sum)
with product : Type :=
| ProductLast (a : atom)
| ProductCons (a : atom) (rest : product)
with atom : Type :=
| Numeral (text : list ascii)
| Group (s : sum).

Scheme sum_ind' := Induction for sum Sort Prop
  with product_ind' := Induction for product Sort Prop
  with atom_ind' := Induction for atom Sort Prop.
Combined Scheme syntax_ind from sum_ind', product_ind', atom_ind'.

(** A non-negative numeral: digits with at most one point among them, and at
    least one digit. *)
Definition digits (s : list ascii) : Prop := Forall (fun c => Py.is_digit c = true) s.

Definition numeral (text : list ascii) : Prop :=
  (digits text /\ text <> [])
  \/ (exists ip fp, digits ip /\ digits fp /\ ip ++ fp <> []
        /\ text = ip ++ "."%char :: fp).

Fixpoint valid_sum (s : sum) : Prop :=
  match s with
  | SumLast p => valid_product p
  | SumCons p rest => valid_product p /\ valid_sum rest
  end
with valid_product (p : product) : Prop :=
  match p with
  | ProductLast a => valid_atom a
  | ProductCons a rest => valid_atom a /\ valid_product rest
  end
with valid_atom (a : atom) : Prop :=
  match a with
  | Numeral text => numeral text
  | Group s => valid_sum s
  end.

(** The expression as text. *)
Fixpoint render_sum (s : sum) : list ascii :=
  match s with
  | SumLast p => render_product p
  | SumCons p rest => render_product p ++ "+"%char :: render_sum rest
  end
with render_product (p : product) : list ascii :=
  match p with
  | ProductLast a => render_atom a
  | ProductCons a rest => render_atom a ++ "*"%char :: render_product rest
  end
with render_atom (a : atom) : list ascii :=
  match a with
  | Numeral text => text
  | Group s => "("%char :: render_sum s ++ [")"%char]
  end.

(** The number a numeral denotes: what [float] makes of it. *)
Definition numeral_value (text : list ascii) : float :=
  match Py.float_of_str text with
  | Some val => val
  | None => nan
  end.

Section Evaluation.

Variable V : Type.
Variable constant : float -> V.
Variable add mul : V -> V -> V.

(** The standard value: products before sums, and the operands of a sum or
    of a product combined from left to right ([sum_from acc] adds the
    remaining products to what has been added up so far). *)
Fixpoint sum_value (s : sum) : V :=
  match s with
  | SumLast p => product_value p
  | SumCons p rest => sum_from (product_value p) rest
  end
with sum_from (acc : V) (s : sum) : V :=
  match s with
  | SumLast p => add acc (product_value p)
  | SumCons p rest => sum_from (add acc (product_value p)) rest
  end
with product_value (p : product) : V :=
  match p with
  | ProductLast a => atom_value a
  | ProductCons a rest => product_from (atom_value a) rest
  end
with product_from (acc : V) (p : product) : V :=
  match p with
  | ProductLast a => mul acc (atom_value a)
  | ProductCons a rest => product_from (mul acc (atom_value a)) rest
  end
with atom_value (a : atom) : V :=
  match a with
  | Numeral text => constant (numeral_value text)
  | Group s => sum_value s
  end.

(** The reference evaluator: a builder with no state whose [fadd] and [fmul]
    are [add] and [mul]. *)
Definition evaluate (op : Op) : V :=
  fst (codegen V unit constant
         (fun l r irb => (add l r, irb)) (fun l r irb => (mul l r, irb)) op tt).

End Evaluation.

(** *** A builder that records what it is asked to emit *)

Inductive value : Type :=
| Const (val : float)
| Reg (n : nat).

Inductive instr : Type :=
| FAdd (l r : value)
| FMul (l r : value).

(** An instruction is appended to the block and named by its position. *)
Definition emit (i : instr) (block : list instr) : value * list instr :=
  (Reg (length block), block ++ [i]).

Definition build (op : Op) (block : list instr) : value * list instr :=
  codegen value (list instr) Const
    (fun l r => emit (FAdd l r)) (fun l r => emit (FMul l r)) op block.

(** [covers expr op i j]: the tree [op] was built from the characters of
    [expr] at the positions [i] up to, and not including, [j]; each node of
    [op] was built from an interval of its own inside that one. *)
Inductive covers (expr : list ascii) : Op -> nat -> nat -> Prop :=
| covers_add l r i k j :
    covers expr l i k -> nth_error expr k = Some "+"%char ->
    covers expr r (S k) j -> covers expr (Add l r) i j
| covers_mul l r i k j :
    covers expr l i k -> nth_error expr k = Some "*"%char ->
    covers expr r (S k) j -> covers expr (Mul l r) i j
| covers_group op i j :
    nth_error expr i = Some "("%char -> covers expr op (S i) j ->
    nth_error expr j = Some ")"%char -> covers expr op i (S j)
| covers_constant val i j :
    (j <= length expr)%nat ->
    Py.float_of_str (firstn (j - i) (skipn i expr)) = Some val ->
    covers expr (Constant val) i j.

(** An exception raised by a matcher, whichever it is, is the outcome of
    [parse_expr]. *)
Definition raises_unchanged
  (Paren_match : (list ascii -> result Op) -> list ascii -> result (option Op))
  (parse_expr : list ascii -> result Op) : Prop :=
  forall expr e,
    Add_match parse_expr expr = Raise e
    \/ (exists add_op, Add_match parse_expr expr = Return add_op
          /\ Mul_match parse_expr expr = Raise e)
    \/ (exists add_op mul_op, Add_match parse_expr expr = Return add_op
          /\ Mul_match parse_expr expr = Return mul_op
          /\ Paren_match parse_expr expr = Raise e) ->
    parse_expr expr = Raise e.

(** The valid expression [(1+2)*(3+4)]. *)
Definition one_plus_two : sum :=
  SumCons (ProductLast (Numeral (py "1"))) (SumLast (ProductLast (Numeral (py "2")))).

Definition three_plus_four : sum :=
  SumCons (ProductLast (Numeral (py "3"))) (SumLast (ProductLast (Numeral (py "4")))).

Definition product_of_sums : sum :=
  SumLast (ProductCons (Group one_plus_two) (ProductLast (Group three_plus_four))).

(** The valid expression [0.1+0.2+0.3]. *)
Definition three_tenths : sum :=
  SumCons (ProductLast (Numeral (py "0.1")))
    (SumCons (ProductLast (Numeral (py "0.2")))
       (SumLast (ProductLast (Numeral (py "0.3"))))).

(** The rational number a float stands for (zero for what is not finite):
    the constants of an evaluator in exact arithmetic. *)
Definition exact_value (val : float) : Qc :=
  match Prim2SF val with
  | S754_finite s m e =>
      Q2Qc (Qmult (inject_Z (if s then Z.neg m else Z.pos m)) (Qpower (inject_Z 2) e))
  | _ => Q2Qc (inject_Z 0)
  end.

(** *** Notions for the further properties *)


(** The tree of a valid expression: the operands of a sum, and those of a
    product, nested to the right, products below sums, a group replaced by
    the tree of what it holds. *)
Fixpoint tree_of_sum (s : sum) : Op :=
  match s with
  | SumLast p => tree_of_product p
  | SumCons p rest => Add (tree_of_product p) (tree_of_sum rest)
  end
with tree_of_product (p : product) : Op :=
  match p with
  | ProductLast a => tree_of_atom a
  | ProductCons a rest => Mul (tree_of_atom a) (tree_of_product rest)
  end
with tree_of_atom (a : atom) : Op :=
  match a with
  | Numeral text => Constant (numeral_value text)
  | Group s => tree_of_sum s
  end.

(** The nodes of a tree, by kind. *)
Fixpoint adds (op : Op) : nat :=
  match op with
  | Add l r => S (adds l + adds r)
  | Mul l r => (adds l + adds r)%nat
  | Constant _ => 0%nat
  end.

Fixpoint muls (op : Op) : nat :=
  match op with
  | Add l r => (muls l + muls r)%nat
  | Mul l r => S (muls l + muls r)
  | Constant _ => 0%nat
  end.

Fixpoint constants (op : Op) : nat :=
  match op with
  | Add l r => (constants l + constants r)%nat
  | Mul l r => (constants l + constants r)%nat
  | Constant _ => 1%nat
  end.

(** How often [c] stands in [s]. *)
Definition occurrences (c : ascii) (s : list ascii) : nat := count_occ ascii_dec s c.

(** An operand refers to a constant or to an instruction before position
    [n]. *)
Definition defined_before (n : nat) (v : value) : Prop :=
  match v with
  | Const _ => True
  | Reg m => (m < n)%nat
  end.

Definition operands (i : instr) : list value :=
  match i with
  | FAdd l r => [l; r]
  | FMul l r => [l; r]
  end.

(** Every instruction of the block uses only what stands before it. *)
Definition well_numbered (block : list instr) : Prop :=
  forall n i, nth_error block n = Some i -> Forall (defined_before n) (operands i).

(** Running a recorded block: the instructions are executed in order, and
    the result of the instruction at position [n] is kept as register [n].
    [None] when an operand names a register that does not exist yet. *)
Section Run.

Variable V : Type.
Variable constant : float -> V.
Variable add mul : V -> V -> V.

Definition value_of (regs : list V) (v : value) : option V :=
  match v with
  | Const val => Some (constant val)
  | Reg n => nth_error regs n
  end.

Definition exec (regs : list V) (i : instr) : option V :=
  match i with
  | FAdd l r =>
      match value_of regs l, value_of regs r with
      | Some x, Some y => Some (add x y)
      | _, _ => None
      end
  | FMul l r =>
      match value_of regs l, value_of regs r with
      | Some x, Some y => Some (mul x y)
      | _, _ => None
      end
  end.

Fixpoint run (regs : list V) (block : list instr) : option (list V) :=
  match block with
  | [] => Some regs
  | i :: rest =>
      match exec regs i with
      | Some x => run (regs ++ [x]) rest
      | None => None
      end
  end.

End Run.

(** The root of a returned tree follows the operators of [expr] outside
    parentheses: the first [+] if there is one, else the first [*], else the
    tree is that of a group's interior or one constant. *)
Definition root_rule (parse_expr : list ascii -> result Op) : Prop :=
  forall expr op, parse_expr expr = Return op ->
    let plus := naked_symbol_search expr ["+"%char] in
    let times := naked_symbol_search expr ["*"%char] in
    (plus <> -1 ->
       exists l r, op = Add l r
         /\ parse_expr (slice expr None (Some plus)) = Return l
         /\ parse_expr (slice expr (Some (plus + 1)) None) = Return r)
    /\ (plus = -1 -> times <> -1 ->
          exists l r, op = Mul l r
            /\ parse_expr (slice expr None (Some times)) = Return l
            /\ parse_expr (slice expr (Some (times + 1)) None) = Return r)
    /\ (plus = -1 -> times = -1 ->
          (exists interior, expr = "("%char :: interior ++ [")"%char]
             /\ parse_expr interior = Return op)
          \/ (exists val, Py.float_of_str expr = Some val /\ op = Constant val)).

(** [main], up to the body of [compiled_func]: the input is cleaned up and
    parsed, and [codegen] fills the empty entry block; the result is the
    block and the value that [irb.ret] returns.  An exception of
    [parse_expr] is not caught.  (What [main] does next, compiling the
    module and calling and printing the result, is LLVM's.) *)
Definition main (inp : list ascii) : result (list instr * value) :=
  let expr := cleanup_input inp in
  tree <- compiler.parse_expr expr ;;
  let (ret, block) := build tree [] in
  Return (block, ret).

(** * Properties *)

(** ** Strings, indices and slices *)

Lemma len_app (a b : list ascii) : len (a ++ b) = len a + len b.
Proof. unfold len. rewrite length_app. lia. Qed.

Lemma len_cons (c : ascii) (s : list ascii) : len (c :: s) = 1 + len s.
Proof. unfold len. simpl length. lia. Qed.

Lemma len_nonneg (s : list ascii) : 0 <= len s.
Proof. unfold len. lia. Qed.

Lemma slice_prefix (a b : list ascii) (c : ascii) :
  slice (a ++ c :: b) None (Some (len a)) = a.
Proof.
  unfold slice, clamp.
  pose proof (len_nonneg a) as Ha. pose proof (len_nonneg b) as Hb.
  rewrite len_app, len_cons.
  destruct (Z.ltb_spec (len a) 0) as [?|_]; [lia|].
  rewrite Z.min_l by lia. rewrite Z.sub_0_r. simpl skipn.
  unfold len. rewrite Nat2Z.id.
  rewrite firstn_app, Nat.sub_diag, firstn_all. simpl. apply app_nil_r.
Qed.

Lemma slice_suffix (a b : list ascii) (c : ascii) :
  slice (a ++ c :: b) (Some (len a + 1)) None = b.
Proof.
  unfold slice, clamp.
  pose proof (len_nonneg a) as Ha. pose proof (len_nonneg b) as Hb.
  rewrite len_app, len_cons.
  destruct (Z.ltb_spec (len a + 1) 0) as [?|_]; [lia|].
  rewrite Z.min_l by lia.
  replace (Z.to_nat (len a + 1)) with (length (a ++ [c])).
  2:{ rewrite length_app. unfold len. simpl length. lia. }
  replace (Z.to_nat (len a + (1 + len b) - (len a + 1))) with (length b)
    by (unfold len; lia).
  replace (a ++ c :: b) with ((a ++ [c]) ++ b) by (rewrite <- app_assoc; reflexivity).
  rewrite skipn_app, skipn_all, Nat.sub_diag.
  change (skipn 0 b) with b. change ([] ++ b) with b.
  apply firstn_all.
Qed.

Lemma slice_interior (c d : ascii) (s : list ascii) :
  slice (c :: s ++ [d]) (Some 1) (Some (-1)) = s.
Proof.
  unfold slice, clamp.
  pose proof (len_nonneg s) as Hs.
  rewrite len_cons, len_app. change (len [d]) with 1.
  change (1 <? 0) with false. change (-1 <? 0) with true. cbv iota.
  rewrite Z.min_l by lia. rewrite Z.max_r by lia.
  change (Z.to_nat 1) with 1%nat. simpl skipn.
  replace (Z.to_nat (-1 + (1 + (len s + 1)) - 1)) with (length s) by (unfold len; lia).
  rewrite firstn_app, Nat.sub_diag, firstn_all. simpl. apply app_nil_r.
Qed.

Lemma slice_length (s : list ascii) (lo hi : option Z) :
  (length (slice s lo hi) <= length s)%nat.
Proof.
  unfold slice. rewrite length_firstn, length_skipn. lia.
Qed.

Lemma slice_prefix_shorter (s : list ascii) (idx : Z) :
  0 <= idx < len s -> (length (slice s None (Some idx)) < length s)%nat.
Proof.
  intros H. unfold slice, clamp.
  destruct (Z.ltb_spec idx 0) as [?|_]; [lia|].
  rewrite length_firstn. unfold len in *. lia.
Qed.

Lemma slice_suffix_shorter (s : list ascii) (idx : Z) :
  0 <= idx < len s -> (length (slice s (Some (idx + 1)%Z) None) < length s)%nat.
Proof.
  intros H. unfold slice, clamp.
  destruct (Z.ltb_spec (idx + 1) 0) as [?|_]; [lia|].
  rewrite length_firstn, length_skipn. unfold len in *. lia.
Qed.

Lemma slice_interior_shorter (s : list ascii) :
  s <> [] -> (length (slice s (Some 1%Z) (Some (-1)%Z)) < length s)%nat.
Proof.
  intros H. destruct s as [|c s]; [congruence|].
  unfold slice. rewrite length_firstn, length_skipn.
  unfold clamp. change (1 <? 0) with false. cbv iota.
  rewrite len_cons. pose proof (len_nonneg s).
  rewrite Z.min_l by lia. change (Z.to_nat 1) with 1%nat. simpl length. lia.
Qed.

Lemma getitem_first (c : ascii) (s : list ascii) : getitem (c :: s) 0 = Return c.
Proof.
  unfold getitem. change (0 <? 0) with false. cbv iota.
  rewrite len_cons. pose proof (len_nonneg s).
  destruct (Z.leb_spec (1 + len s) 0) as [?|_]; [lia|]. reflexivity.
Qed.

Lemma getitem_empty (i : Z) :
  getitem [] i = Raise (IndexError (py "string index out of range")).
Proof.
  unfold getitem. change (len []) with 0.
  destruct (Z.ltb_spec i 0); rewrite ?Z.add_0_r.
  - destruct (Z.ltb_spec i 0); [reflexivity|lia].
  - destruct (Z.ltb_spec i 0); [lia|].
    destruct (Z.leb_spec 0 i); [reflexivity|lia].
Qed.

Lemma getitem_last (s : list ascii) (d : ascii) : getitem (s ++ [d]) (-1) = Return d.
Proof.
  unfold getitem. change (-1 <? 0) with true. cbv iota.
  rewrite len_app. change (len [d]) with 1. pose proof (len_nonneg s).
  destruct (Z.ltb_spec (-1 + (len s + 1)) 0) as [?|_]; [lia|].
  destruct (Z.leb_spec (len s + 1) (-1 + (len s + 1))) as [?|_]; [lia|]. simpl orb. cbv iota.
  replace (Z.to_nat (-1 + (len s + 1))) with (length s) by (unfold len; lia).
  rewrite nth_error_app2 by lia. rewrite Nat.sub_diag. reflexivity.
Qed.

(** A non-empty string has a last character. *)
Lemma last_char (c : ascii) (s : list ascii) :
  exists s' d, c :: s = s' ++ [d].
Proof.
  destruct (exists_last (l := c :: s)) as (s' & d & E); [discriminate|].
  exists s', d. exact E.
Qed.

(** Two ways to cut a string at a character. *)
Lemma cut_cases (l r a b : list ascii) (x y : ascii) :
  l ++ x :: r = a ++ y :: b ->
  (l = a /\ x = y /\ r = b)
  \/ (exists m, a = l ++ x :: m /\ r = m ++ y :: b)
  \/ (exists m, l = a ++ y :: m /\ b = m ++ x :: r).
Proof.
  revert a. induction l as [|c l IH]; intros [|c' a] E; simpl in E.
  - injection E as -> ->. left. auto.
  - injection E as -> ->. right. left. exists a. auto.
  - injection E as -> <-. right. right. exists l. auto.
  - injection E as -> E. destruct (IH _ E) as [(-> & -> & ->)|[(m & -> & ->)|(m & -> & ->)]].
    + left. auto.
    + right. left. exists m. auto.
    + right. right. exists m. auto.
Qed.

(** ** The nesting counter *)

Lemma depth_app (a b : list ascii) : depth (a ++ b) = depth a + depth b.
Proof. induction a as [|c a IH]; simpl; [reflexivity|]. rewrite IH. lia. Qed.

Lemma bump_open : bump "(" = 1.
Proof. reflexivity. Qed.

Lemma bump_close : bump ")" = -1.
Proof. reflexivity. Qed.

Lemma bump_other (c : ascii) : c <> "("%char -> c <> ")"%char -> bump c = 0.
Proof.
  intros H1 H2. unfold bump.
  destruct (Ascii.eqb_spec c "("); [congruence|].
  destruct (Ascii.eqb_spec c ")"); [congruence|]. reflexivity.
Qed.

Lemma depth_plain (s : list ascii) : Forall plain_char s -> depth s = 0.
Proof.
  induction 1 as [|c s (H1 & H2 & _) _ IH]; simpl; [reflexivity|].
  rewrite bump_other by assumption. lia.
Qed.

Lemma Forall_plain_app_l (a b : list ascii) :
  Forall plain_char (a ++ b) -> Forall plain_char a.
Proof. intros H. apply Forall_app in H. tauto. Qed.

(** ** [naked_symbol_search] *)

Lemma in_targets (sym : ascii) (targets : list ascii) :
  existsb (Ascii.eqb sym) targets = true <-> In sym targets.
Proof.
  rewrite existsb_exists. split.
  - intros (x & Hx & E). apply Ascii.eqb_eq in E. subst. exact Hx.
  - intros H. exists sym. split; [exact H|apply Ascii.eqb_refl].
Qed.

(** The loop, started at index [i] with the counter at [c0]: it returns the
    position of the first character that is a target, is no parenthesis and
    is met with the counter at zero. *)
Lemma naked_symbol_loop_spec (targets : list ascii) :
  forall (s : list ascii) (i c0 : Z),
    (naked_symbol_loop targets i c0 s = -1
     /\ forall a sym b, s = a ++ sym :: b -> In sym targets ->
          sym <> "("%char -> sym <> ")"%char -> c0 + depth a <> 0)
    \/ (exists a sym b, s = a ++ sym :: b
          /\ naked_symbol_loop targets i c0 s = i + len a
          /\ In sym targets /\ sym <> "("%char /\ sym <> ")"%char
          /\ c0 + depth a = 0
          /\ forall a' sym' b', s = a' ++ sym' :: b' ->
               (length a' < length a)%nat -> In sym' targets ->
               sym' <> "("%char -> sym' <> ")"%char -> c0 + depth a' <> 0).
Proof.
  induction s as [|s0 s IH]; intros i c0.
  - left. split; [reflexivity|]. intros [|? ?] ? ? E; discriminate E.
  - set (R := naked_symbol_loop targets i c0 (s0 :: s)).
    assert (Step : forall c1,
      (bump s0 = c1 - c0) ->
      (~ (In s0 targets /\ s0 <> "("%char /\ s0 <> ")"%char /\ c0 = 0)) ->
      R = naked_symbol_loop targets (i + 1) c1 s ->
      (R = -1
       /\ forall a sym b, s0 :: s = a ++ sym :: b -> In sym targets ->
            sym <> "("%char -> sym <> ")"%char -> c0 + depth a <> 0)
      \/ (exists a sym b, s0 :: s = a ++ sym :: b
            /\ R = i + len a
            /\ In sym targets /\ sym <> "("%char /\ sym <> ")"%char
            /\ c0 + depth a = 0
            /\ forall a' sym' b', s0 :: s = a' ++ sym' :: b' ->
                 (length a' < length a)%nat -> In sym' targets ->
                 sym' <> "("%char -> sym' <> ")"%char -> c0 + depth a' <> 0)).
    { intros c1 Hb Hno E. rewrite E.
      destruct (IH (i + 1) c1) as [(R1 & No)|(a & sym & b & Es & R1 & Hin & N1 & N2 & Z0 & Min)].
      - left. split; [exact R1|].
        intros [|x a] sym b E' Hin N1 N2; simpl in E'; injection E' as -> E'.
        + simpl. intros Hz. apply Hno. repeat split; auto. lia.
        + simpl. specialize (No a sym b E' Hin N1 N2). lia.
      - right. exists (s0 :: a), sym, b. subst s.
        split; [reflexivity|]. split; [rewrite R1, len_cons; lia|].
        repeat (split; [assumption|]). split; [simpl; lia|].
        intros [|x a'] sym' b' E' Hlt Hin' N1' N2'; simpl in E'; injection E' as -> E'.
        + simpl. intros Hz. apply Hno. repeat split; auto. lia.
        + simpl. simpl in Hlt. specialize (Min a' sym' b' E' ltac:(lia) Hin' N1' N2'). lia. }
    assert (ER : R =
      if Ascii.eqb s0 "(" then naked_symbol_loop targets (i + 1) (c0 + 1) s
      else if Ascii.eqb s0 ")" then naked_symbol_loop targets (i + 1) (c0 - 1) s
      else if existsb (Ascii.eqb s0) targets && (c0 =? 0) then i
      else naked_symbol_loop targets (i + 1) c0 s) by reflexivity.
    clearbody R.
    destruct (Ascii.eqb_spec s0 "(") as [->|Nopen].
    { apply (Step (c0 + 1)); [rewrite bump_open; lia|tauto|exact ER]. }
    destruct (Ascii.eqb_spec s0 ")") as [->|Nclose].
    { apply (Step (c0 - 1)); [rewrite bump_close; lia|tauto|exact ER]. }
    destruct (existsb (Ascii.eqb s0) targets) eqn:Hex; simpl andb in ER.
    + destruct (Z.eqb_spec c0 0) as [->|Hc].
      * right. exists [], s0, s. split; [reflexivity|].
        split; [change (len []) with 0; lia|]. apply in_targets in Hex.
        repeat (split; [assumption|]). split; [reflexivity|].
        intros a' ? ? _ Hlt. simpl in Hlt. lia.
      * apply (Step c0); [rewrite bump_other by assumption; lia|tauto|exact ER].
    + apply (Step c0); [rewrite bump_other by assumption; lia| |exact ER].
      intros (Hin & _). apply in_targets in Hin. congruence.
Qed.

Lemma same_prefix (a a' b b' : list ascii) :
  a ++ b = a' ++ b' -> length a = length a' -> a = a' /\ b = b'.
Proof.
  intros E L. revert a' E L. induction a as [|x a IH]; intros [|x' a'] E L; try discriminate L.
  - auto.
  - simpl in E. injection E as -> E. simpl in L.
    destruct (IH a' E ltac:(lia)) as (-> & ->). auto.
Qed.

(** No target of [s] is met outside parentheses before position [n]. *)
Lemma naked_symbol_search_none (s targets : list ascii) :
  (forall a sym b, s = a ++ sym :: b -> In sym targets ->
     sym <> "("%char -> sym <> ")"%char -> depth a <> 0) ->
  naked_symbol_search s targets = -1.
Proof.
  intros No. unfold naked_symbol_search.
  destruct (naked_symbol_loop_spec targets s 0 0)
    as [(R & _)|(a & sym & b & E & _ & Hin & N1 & N2 & Z0 & _)]; [exact R|].
  exfalso. apply (No a sym b E Hin N1 N2). lia.
Qed.

Lemma naked_symbol_search_found (targets a b : list ascii) (sym : ascii) :
  In sym targets -> sym <> "("%char -> sym <> ")"%char -> depth a = 0 ->
  (forall a' sym' b', a = a' ++ sym' :: b' -> In sym' targets ->
     sym' <> "("%char -> sym' <> ")"%char -> depth a' <> 0) ->
  naked_symbol_search (a ++ sym :: b) targets = len a.
Proof.
  intros Hin N1 N2 Z0 First. unfold naked_symbol_search.
  destruct (naked_symbol_loop_spec targets (a ++ sym :: b) 0 0)
    as [(_ & No)|(a1 & sym1 & b1 & E & R & Hin1 & M1 & M2 & Z1 & Min)].
  - exfalso. apply (No a sym b eq_refl Hin N1 N2). lia.
  - rewrite R.
    destruct (Nat.lt_trichotomy (length a1) (length a)) as [L|[L|L]].
    + exfalso. destruct (cut_cases _ _ _ _ _ _ E) as [(-> & _)|[(m & -> & _)|(m & Ea & _)]].
      * lia.
      * rewrite length_app in L. simpl in L. lia.
      * apply (First a1 sym1 m Ea Hin1 M1 M2). lia.
    + destruct (same_prefix _ _ _ _ E (eq_sym L)) as (-> & _). lia.
    + exfalso. apply (Min a sym b eq_refl L Hin N1 N2). lia.
Qed.

Lemma naked_symbol_search_inv (s targets : list ascii) :
  naked_symbol_search s targets <> -1 ->
  exists a sym b, s = a ++ sym :: b
    /\ naked_symbol_search s targets = len a
    /\ In sym targets /\ sym <> "("%char /\ sym <> ")"%char /\ depth a = 0
    /\ forall a' sym' b', s = a' ++ sym' :: b' ->
         (length a' < length a)%nat -> In sym' targets ->
         sym' <> "("%char -> sym' <> ")"%char -> depth a' <> 0.
Proof.
  unfold naked_symbol_search. intros H.
  destruct (naked_symbol_loop_spec targets s 0 0)
    as [(R & _)|(a & sym & b & E & R & Hin & N1 & N2 & Z0 & Min)]; [congruence|].
  exists a, sym, b. repeat (split; [first [assumption|lia]|]).
  intros a' sym' b' E' L Hin' M1 M2. specialize (Min a' sym' b' E' L Hin' M1 M2). lia.
Qed.

Lemma naked_symbol_search_range (s targets : list ascii) :
  naked_symbol_search s targets = -1
  \/ 0 <= naked_symbol_search s targets < len s.
Proof.
  destruct (Z.eq_dec (naked_symbol_search s targets) (-1)) as [E|N]; [left; exact E|right].
  destruct (naked_symbol_search_inv s targets N) as (a & sym & b & -> & R & _).
  rewrite R, len_app, len_cons.
  pose proof (len_nonneg a). pose proof (len_nonneg b). lia.
Qed.

(** ** The recursion of [parse_expr] *)

(** A matcher that calls [parse_expr] on strictly shorter strings only. *)
Lemma Add_match_ext (P Q : list ascii -> result Op) (expr : list ascii) :
  (forall s, (length s < length expr)%nat -> P s = Q s) ->
  Add_match P expr = Add_match Q expr.
Proof.
  intros H. unfold Add_match.
  destruct (naked_symbol_search_range expr ["+"%char]) as [->|R]; [reflexivity|].
  rewrite !(H _ (slice_prefix_shorter _ _ R)), !(H _ (slice_suffix_shorter _ _ R)).
  reflexivity.
Qed.

Lemma Mul_match_ext (P Q : list ascii -> result Op) (expr : list ascii) :
  (forall s, (length s < length expr)%nat -> P s = Q s) ->
  Mul_match P expr = Mul_match Q expr.
Proof.
  intros H. unfold Mul_match.
  destruct (naked_symbol_search_range expr ["*"%char]) as [->|R]; [reflexivity|].
  rewrite !(H _ (slice_prefix_shorter _ _ R)), !(H _ (slice_suffix_shorter _ _ R)).
  reflexivity.
Qed.

Lemma Paren_match_parser_ext (P Q : list ascii -> result Op) (expr : list ascii) :
  (forall s, (length s < length expr)%nat -> P s = Q s) ->
  Paren_match_parser P expr = Paren_match_parser Q expr.
Proof.
  intros H. unfold Paren_match_parser.
  destruct expr as [|c s]; [rewrite getitem_empty; reflexivity|].
  rewrite (H _ (slice_interior_shorter (c :: s) ltac:(discriminate))). reflexivity.
Qed.

Lemma Paren_match_compiler_ext (P Q : list ascii -> result Op) (expr : list ascii) :
  (forall s, (length s < length expr)%nat -> P s = Q s) ->
  Paren_match_compiler P expr = Paren_match_compiler Q expr.
Proof.
  intros H. unfold Paren_match_compiler.
  destruct expr as [|c s]; [rewrite getitem_empty; reflexivity|].
  rewrite (H _ (slice_interior_shorter (c :: s) ltac:(discriminate))). reflexivity.
Qed.

Section Recursion.

Variable Paren_match : (list ascii -> result Op) -> list ascii -> result (option Op).

Hypothesis Paren_match_ext :
  forall (P Q : list ascii -> result Op) (expr : list ascii),
    (forall s, (length s < length expr)%nat -> P s = Q s) ->
    Paren_match P expr = Paren_match Q expr.

Lemma parse_expr_body_ext (P Q : list ascii -> result Op) (expr : list ascii) :
  (forall s, (length s < length expr)%nat -> P s = Q s) ->
  parse_expr_body Paren_match P expr = parse_expr_body Paren_match Q expr.
Proof.
  intros H. unfold parse_expr_body.
  rewrite (Add_match_ext P Q expr H), (Mul_match_ext P Q expr H),
    (Paren_match_ext P Q expr H).
  reflexivity.
Qed.

Lemma parse_expr_fuel_enough (n m : nat) :
  forall expr, (length expr < n)%nat -> (length expr < m)%nat ->
    parse_expr_fuel Paren_match n expr = parse_expr_fuel Paren_match m expr.
Proof.
  revert m. induction n as [|n IH]; intros [|m] expr Hn Hm; try lia.
  simpl. apply parse_expr_body_ext. intros s Hs. apply IH; lia.
Qed.

(** [parse_expr] satisfies the equation of the source: the fuel is never
    used up. *)
Lemma parse_expr_fuel_eq (expr : list ascii) :
  parse_expr_fuel Paren_match (S (length expr)) expr
  = parse_expr_body Paren_match
      (fun s => parse_expr_fuel Paren_match (S (length s)) s) expr.
Proof.
  change (parse_expr_fuel Paren_match (S (length expr)) expr)
    with (parse_expr_body Paren_match (parse_expr_fuel Paren_match (length expr)) expr).
  apply parse_expr_body_ext. intros s Hs.
  apply parse_expr_fuel_enough; lia.
Qed.

End Recursion.

Lemma parser_parse_expr_eq (expr : list ascii) :
  parser.parse_expr expr
  = parse_expr_body parser.Paren_match parser.parse_expr expr.
Proof. apply (parse_expr_fuel_eq _ Paren_match_parser_ext). Qed.

Lemma compiler_parse_expr_eq (expr : list ascii) :
  compiler.parse_expr expr
  = parse_expr_body compiler.Paren_match compiler.parse_expr expr.
Proof. apply (parse_expr_fuel_eq _ Paren_match_compiler_ext). Qed.

(** What [parse_expr] does with the outcomes of its four matchers. *)
Lemma parse_expr_body_spec
  (PM : (list ascii -> result Op) -> list ascii -> result (option Op))
  (P : list ascii -> result Op) (expr : list ascii) :
  parse_expr_body PM P expr =
  match Add_match P expr with
  | Raise e => Raise e
  | Return add_op =>
      match Mul_match P expr with
      | Raise e => Raise e
      | Return mul_op =>
          match PM P expr with
          | Raise e => Raise e
          | Return paren_op =>
              match add_op, mul_op, paren_op, Py.float_of_str expr with
              | Some op, _, _, _ => Return op
              | None, Some op, _, _ => Return op
              | None, None, Some op, _ => Return op
              | None, None, None, Some val => Return (Constant val)
              | None, None, None, None => Raise (ValueError (could_not_parse expr))
              end
          end
      end
  end.
Proof.
  unfold parse_expr_body, Constant_match, por, bind.
  destruct (Add_match P expr) as [[a|]|]; try reflexivity;
    destruct (Mul_match P expr) as [[m|]|]; try reflexivity;
    destruct (PM P expr) as [[p|]|]; try reflexivity;
    destruct (Py.float_of_str expr); reflexivity.
Qed.

Lemma first_match_spec
  (PM : (list ascii -> result Op) -> list ascii -> result (option Op))
  (P : list ascii -> result Op) (expr : list ascii) :
  first_match PM P expr =
  match Add_match P expr with
  | Raise e => Raise e
  | Return (Some op) => Return op
  | Return None =>
      match Mul_match P expr with
      | Raise e => Raise e
      | Return (Some op) => Return op
      | Return None =>
          match PM P expr with
          | Raise e => Raise e
          | Return (Some op) => Return op
          | Return None =>
              match Py.float_of_str expr with
              | Some val => Return (Constant val)
              | None => Raise (ValueError (could_not_parse expr))
              end
          end
      end
  end.
Proof.
  unfold first_match, Constant_match, por, bind.
  destruct (Add_match P expr) as [[a|]|]; try reflexivity;
    destruct (Mul_match P expr) as [[m|]|]; try reflexivity;
    destruct (PM P expr) as [[p|]|]; try reflexivity;
    destruct (Py.float_of_str expr); reflexivity.
Qed.

(** ** The matchers one by one *)

Lemma in_singleton (x y : ascii) : In x [y] -> x = y.
Proof. intros [E|[]]. symmetry. exact E. Qed.

Lemma len_not_minus_one (a : list ascii) : negb (len a =? -1) = true.
Proof.
  pose proof (len_nonneg a). destruct (Z.eqb_spec (len a) (-1)); [lia|reflexivity].
Qed.

(** [Add.match]: either no [+] stands outside parentheses and the result is
    [None], or [expr] is cut at the first such [+] and both sides are
    parsed, the left one first. *)
Lemma Add_match_cases (P : list ascii -> result Op) (expr : list ascii) :
  (naked_symbol_search expr ["+"%char] = -1 /\ Add_match P expr = Return None)
  \/ (exists a b, expr = a ++ "+"%char :: b /\ depth a = 0
        /\ naked_symbol_search expr ["+"%char] = len a
        /\ Add_match P expr = (l <- P a ;; r <- P b ;; Return (Some (Add l r)))).
Proof.
  unfold Add_match.
  destruct (Z.eq_dec (naked_symbol_search expr ["+"%char]) (-1)) as [E|N].
  - left. rewrite E. auto.
  - right. destruct (naked_symbol_search_inv _ _ N)
      as (a & sym & b & -> & R & Hin & _ & _ & Z0 & _).
    apply in_singleton in Hin. subst sym. exists a, b.
    rewrite R, len_not_minus_one, slice_prefix, slice_suffix. auto.
Qed.

Lemma Mul_match_cases (P : list ascii -> result Op) (expr : list ascii) :
  (naked_symbol_search expr ["*"%char] = -1 /\ Mul_match P expr = Return None)
  \/ (exists a b, expr = a ++ "*"%char :: b /\ depth a = 0
        /\ naked_symbol_search expr ["*"%char] = len a
        /\ Mul_match P expr = (l <- P a ;; r <- P b ;; Return (Some (Mul l r)))).
Proof.
  unfold Mul_match.
  destruct (Z.eq_dec (naked_symbol_search expr ["*"%char]) (-1)) as [E|N].
  - left. rewrite E. auto.
  - right. destruct (naked_symbol_search_inv _ _ N)
      as (a & sym & b & -> & R & Hin & _ & _ & Z0 & _).
    apply in_singleton in Hin. subst sym. exists a, b.
    rewrite R, len_not_minus_one, slice_prefix, slice_suffix. auto.
Qed.

Lemma bind_return_inv {A B : Type} (m : result A) (k : A -> result B) (b : B) :
  bind m k = Return b -> exists a, m = Return a /\ k a = Return b.
Proof. destruct m as [a|e]; simpl; [eauto|discriminate]. Qed.

Lemma Add_match_some (P : list ascii -> result Op) (expr : list ascii) (op : Op) :
  Add_match P expr = Return (Some op) ->
  exists a b l r, expr = a ++ "+"%char :: b /\ depth a = 0
    /\ P a = Return l /\ P b = Return r /\ op = Add l r.
Proof.
  intros H. destruct (Add_match_cases P expr) as [(_ & E)|(a & b & -> & Z0 & _ & E)];
    rewrite E in H; [discriminate|].
  apply bind_return_inv in H as (l & Hl & H).
  apply bind_return_inv in H as (r & Hr & H).
  injection H as <-. exists a, b, l, r. auto.
Qed.

Lemma Mul_match_some (P : list ascii -> result Op) (expr : list ascii) (op : Op) :
  Mul_match P expr = Return (Some op) ->
  exists a b l r, expr = a ++ "*"%char :: b /\ depth a = 0
    /\ P a = Return l /\ P b = Return r /\ op = Mul l r.
Proof.
  intros H. destruct (Mul_match_cases P expr) as [(_ & E)|(a & b & -> & Z0 & _ & E)];
    rewrite E in H; [discriminate|].
  apply bind_return_inv in H as (l & Hl & H).
  apply bind_return_inv in H as (r & Hr & H).
  injection H as <-. exists a, b, l, r. auto.
Qed.

(** The shapes a string can have at its two ends. *)
Lemma paren_shape (expr : list ascii) :
  expr = []
  \/ (exists interior, expr = "("%char :: interior ++ [")"%char])
  \/ (exists first s last, expr = s ++ [last] /\ getitem expr 0 = Return first
        /\ getitem expr (-1) = Return last
        /\ (first <> "("%char \/ last <> ")"%char)).
Proof.
  destruct expr as [|c s]; [left; reflexivity|right].
  destruct (last_char c s) as (s' & d & E).
  destruct (ascii_dec c "(") as [->|Nc].
  - destruct (ascii_dec d ")") as [->|Nd].
    + left. destruct s' as [|c' s']; simpl in E.
      * discriminate E.
      * injection E as <- ->. exists s'. reflexivity.
    + right. exists "("%char, s', d.
      split; [exact E|]. split; [apply getitem_first|].
      split; [rewrite E; apply getitem_last|]. auto.
  - right. exists c, s', d.
    split; [exact E|]. split; [apply getitem_first|].
    split; [rewrite E; apply getitem_last|]. auto.
Qed.

Lemma Paren_match_parser_empty (P : list ascii -> result Op) :
  Paren_match_parser P [] = Raise (IndexError (py "string index out of range")).
Proof. reflexivity. Qed.

Lemma Paren_match_compiler_empty (P : list ascii -> result Op) :
  Paren_match_compiler P [] = Raise (IndexError (py "string index out of range")).
Proof. reflexivity. Qed.

Lemma Paren_match_parser_group (P : list ascii -> result Op) (interior : list ascii) :
  Paren_match_parser P ("("%char :: interior ++ [")"%char])
  = (op <- P interior ;; Return (Some op)).
Proof.
  unfold Paren_match_parser. rewrite getitem_first. simpl bind.
  change ("("%char :: interior ++ [")"%char]) with (("("%char :: interior) ++ [")"%char]).
  rewrite getitem_last. simpl bind.
  change (("("%char :: interior) ++ [")"%char]) with ("("%char :: interior ++ [")"%char]).
  rewrite slice_interior. reflexivity.
Qed.

Lemma Paren_match_compiler_group (P : list ascii -> result Op) (interior : list ascii) :
  Paren_match_compiler P ("("%char :: interior ++ [")"%char])
  = if paren_loop 0 interior =? 0 then (op <- P interior ;; Return (Some op))
    else Return None.
Proof.
  unfold Paren_match_compiler. rewrite getitem_first. simpl bind.
  change ("("%char :: interior ++ [")"%char]) with (("("%char :: interior) ++ [")"%char]).
  rewrite getitem_last. simpl bind.
  change (("("%char :: interior) ++ [")"%char]) with ("("%char :: interior ++ [")"%char]).
  rewrite slice_interior. reflexivity.
Qed.

Lemma Paren_match_parser_other (P : list ascii -> result Op) (expr : list ascii) :
  expr <> [] -> (forall interior, expr <> "("%char :: interior ++ [")"%char]) ->
  Paren_match_parser P expr = Return None.
Proof.
  intros Ne No. destruct (paren_shape expr) as [E|[(i & E)|(c & s & d & _ & G0 & G1 & H)]].
  - congruence.
  - exfalso. exact (No i E).
  - unfold Paren_match_parser. rewrite G0. simpl bind.
    destruct (Ascii.eqb_spec c "("); [|reflexivity].
    rewrite G1. simpl bind. destruct (Ascii.eqb_spec d ")"); [|reflexivity].
    tauto.
Qed.

Lemma Paren_match_compiler_other (P : list ascii -> result Op) (expr : list ascii) :
  expr <> [] -> (forall interior, expr <> "("%char :: interior ++ [")"%char]) ->
  Paren_match_compiler P expr = Return None.
Proof.
  intros Ne No. destruct (paren_shape expr) as [E|[(i & E)|(c & s & d & _ & G0 & G1 & H)]].
  - congruence.
  - exfalso. exact (No i E).
  - unfold Paren_match_compiler. rewrite G0. simpl bind.
    destruct (Ascii.eqb_spec c "("); [|reflexivity].
    rewrite G1. simpl bind. destruct (Ascii.eqb_spec d ")"); [|reflexivity].
    tauto.
Qed.

Lemma Paren_match_parser_some (P : list ascii -> result Op) (expr : list ascii) (op : Op) :
  Paren_match_parser P expr = Return (Some op) ->
  exists interior, expr = "("%char :: interior ++ [")"%char] /\ P interior = Return op.
Proof.
  intros H. destruct (paren_shape expr) as [->|[(i & ->)|(c & s & d & E & G0 & G1 & N)]].
  - discriminate H.
  - rewrite Paren_match_parser_group in H.
    apply bind_return_inv in H as (t & Ht & H). injection H as <-. eauto.
  - unfold Paren_match_parser in H. rewrite G0 in H. simpl bind in H.
    destruct (Ascii.eqb_spec c "("); [|discriminate H].
    rewrite G1 in H. simpl bind in H.
    destruct (Ascii.eqb_spec d ")"); [tauto|discriminate H].
Qed.

(** ** The balance loop of [compiler.py] *)

Lemma paren_loop_step (count : Z) (symb : ascii) (rest : list ascii) :
  paren_loop count (symb :: rest)
  = if count + bump symb <? 0 then count + bump symb
    else paren_loop (count + bump symb) rest.
Proof.
  simpl. unfold bump.
  destruct (Ascii.eqb symb "("); [reflexivity|].
  destruct (Ascii.eqb symb ")"); [reflexivity|].
  rewrite Z.add_0_r. reflexivity.
Qed.

(** The loop ends with the counter at zero exactly when the counter never
    went below zero and is zero after the last character. *)
Lemma paren_loop_zero (s : list ascii) :
  forall count, 0 <= count ->
    (paren_loop count s = 0
     <-> count + depth s = 0 /\ forall n : nat, 0 <= count + depth (firstn n s)).
Proof.
  induction s as [|symb rest IH]; intros count Hc.
  - simpl. split.
    + intros ->. split; [reflexivity|]. intros n. rewrite firstn_nil. simpl. lia.
    + intros (H & _). lia.
  - rewrite paren_loop_step.
    destruct (Z.ltb_spec (count + bump symb) 0) as [Neg|Pos].
    + split; [lia|]. intros (_ & H). specialize (H 1%nat). simpl in H. lia.
    + rewrite (IH _ Pos). simpl depth. split.
      * intros (H1 & H2). split; [lia|]. intros [|n]; simpl; [lia|].
        specialize (H2 n). lia.
      * intros (H1 & H2). split; [lia|]. intros n.
        specialize (H2 (S n)). simpl in H2. lia.
Qed.

Lemma paren_loop_balanced (s : list ascii) : paren_loop 0 s = 0 <-> balanced s.
Proof. rewrite (paren_loop_zero s 0) by lia. unfold balanced. simpl. tauto. Qed.

Lemma Paren_match_compiler_some (P : list ascii -> result Op) (expr : list ascii) (op : Op) :
  Paren_match_compiler P expr = Return (Some op) ->
  exists interior, expr = "("%char :: interior ++ [")"%char]
    /\ balanced interior /\ P interior = Return op.
Proof.
  intros H. destruct (paren_shape expr) as [->|[(i & ->)|(c & s & d & E & G0 & G1 & N)]].
  - discriminate H.
  - rewrite Paren_match_compiler_group in H.
    destruct (Z.eqb_spec (paren_loop 0 i) 0) as [B|]; [|discriminate H].
    apply paren_loop_balanced in B.
    apply bind_return_inv in H as (t & Ht & H). injection H as <-. eauto.
  - unfold Paren_match_compiler in H. rewrite G0 in H. simpl bind in H.
    destruct (Ascii.eqb_spec c "("); [|discriminate H].
    rewrite G1 in H. simpl bind in H.
    destruct (Ascii.eqb_spec d ")"); [tauto|discriminate H].
Qed.

(** ** The builtin [float] on numerals *)

Lemma float_of_str_empty : Py.float_of_str [] = None.
Proof. reflexivity. Qed.

Lemma digit_cases (c : ascii) : Py.is_digit c = true -> In c (py "0123456789").
Proof.
  destruct c as [[|] [|] [|] [|] [|] [|] [|] [|]]; intros H;
    try (vm_compute in H; discriminate H); simpl; tauto.
Qed.

(** What the scans need to know of a character of a numeral. *)
Lemma numeral_char_facts (c : ascii) :
  Py.is_digit c = true \/ c = "."%char ->
  plain_char c /\ Py.float_space c = false /\ Ascii.eqb c "_" = false
  /\ Ascii.eqb c "+" = false /\ Ascii.eqb c "-" = false
  /\ Ascii.eqb (Py.lower c) "i" = false /\ Ascii.eqb (Py.lower c) "n" = false.
Proof.
  intros [H| ->].
  - apply digit_cases in H. simpl in H.
    repeat (destruct H as [<-|H]; [unfold plain_char; repeat split; (reflexivity || discriminate)|]).
    destruct H.
  - unfold plain_char; repeat split; (reflexivity || discriminate).
Qed.

Lemma lstrip_id (s : list ascii) :
  Forall (fun c => Py.float_space c = false) s -> Py.lstrip s = s.
Proof. intros [|c r H _]; simpl; [reflexivity|]. rewrite H. reflexivity. Qed.

Lemma rstrip_id (s : list ascii) :
  Forall (fun c => Py.float_space c = false) s -> Py.rstrip s = s.
Proof.
  induction 1 as [|c r H _ IH]; simpl; [reflexivity|].
  rewrite IH. destruct r; [rewrite H|]; reflexivity.
Qed.

Lemma drop_underscores_id (s : list ascii) :
  Forall (fun c => Ascii.eqb c "_" = false) s ->
  forall prev, Ascii.eqb prev "_" = false -> Py.drop_underscores prev s = Some s.
Proof.
  induction 1 as [|c r H _ IH]; intros prev Hp; simpl.
  - rewrite Hp. reflexivity.
  - rewrite H, Hp. simpl. rewrite (IH c H). reflexivity.
Qed.

Lemma span_digits_app (ip rest : list ascii) :
  digits ip ->
  match rest with [] => True | c :: _ => Py.is_digit c = false end ->
  Py.span_digits (ip ++ rest) = (ip, rest).
Proof.
  intros H R. induction H as [|c r H _ IH]; simpl.
  - destruct rest as [|c r]; [reflexivity|]. simpl. rewrite R. reflexivity.
  - rewrite H, IH. reflexivity.
Qed.

Lemma numeral_chars (text : list ascii) :
  numeral text ->
  text <> [] /\ Forall (fun c => Py.is_digit c = true \/ c = "."%char) text.
Proof.
  intros [(H & Ne)|(ip & fp & Hi & Hf & Ne & ->)].
  - split; [exact Ne|]. eapply Forall_impl; [|exact H]. tauto.
  - split; [destruct ip; discriminate|].
    apply Forall_app. split; [eapply Forall_impl; [|exact Hi]; tauto|].
    constructor; [tauto|]. eapply Forall_impl; [|exact Hf]. tauto.
Qed.

Lemma numeral_plain (text : list ascii) : numeral text -> Forall plain_char text.
Proof.
  intros H. apply numeral_chars in H as (_ & H).
  eapply Forall_impl; [|exact H]. intros c Hc. apply (numeral_char_facts c Hc).
Qed.

Lemma parse_number_numeral (text : list ascii) :
  numeral text -> exists m e, Py.parse_number text = Some (m, e).
Proof.
  unfold Py.parse_number.
  intros [(H & Ne)|(ip & fp & Hi & Hf & Ne & ->)].
  - pose proof (span_digits_app text [] H I) as E. rewrite app_nil_r in E. rewrite E.
    simpl Py.fraction. cbv iota beta. rewrite app_nil_r.
    destruct text as [|c r]; [congruence|]. simpl. eauto.
  - rewrite (span_digits_app ip ("."%char :: fp) Hi eq_refl).
    simpl Py.fraction.
    pose proof (span_digits_app fp [] Hf I) as E. rewrite app_nil_r in E. rewrite E.
    destruct (ip ++ fp) as [|c r]; [congruence|]. simpl. eauto.
Qed.

(** [float] accepts every numeral. *)
Lemma float_of_str_numeral (text : list ascii) :
  numeral text -> exists val, Py.float_of_str text = Some val.
Proof.
  intros H. destruct (parse_number_numeral text H) as (m & e & Hp).
  destruct (numeral_chars text H) as (Ne & Hc).
  assert (F : forall c, In c text ->
    plain_char c /\ Py.float_space c = false /\ Ascii.eqb c "_" = false
    /\ Ascii.eqb c "+" = false /\ Ascii.eqb c "-" = false
    /\ Ascii.eqb (Py.lower c) "i" = false /\ Ascii.eqb (Py.lower c) "n" = false).
  { intros c Hin. apply numeral_char_facts. rewrite Forall_forall in Hc. auto. }
  unfold Py.float_of_str, Py.strip.
  rewrite lstrip_id, rstrip_id
    by (apply Forall_forall; intros c Hin; apply (F c Hin)).
  rewrite drop_underscores_id;
    [|apply Forall_forall; intros c Hin; apply (F c Hin)|reflexivity].
  destruct text as [|c r]; [congruence|].
  destruct (F c (or_introl eq_refl)) as (_ & _ & _ & Hplus & Hminus & Hi & Hn).
  unfold Py.split_sign. rewrite Hplus, Hminus.
  simpl map. simpl Py.same_text. rewrite Hi, Hn. simpl.
  rewrite Hp. eauto.
Qed.

Lemma numeral_value_spec (text : list ascii) :
  numeral text -> Py.float_of_str text = Some (numeral_value text).
Proof.
  intros H. destruct (float_of_str_numeral text H) as (val & E).
  unfold numeral_value. rewrite E. reflexivity.
Qed.

(** ** Well-formed strings *)

Lemma depth_cons (c : ascii) (s : list ascii) : depth (c :: s) = bump c + depth s.
Proof. reflexivity. Qed.

Lemma firstn_prefix (a b : list ascii) : firstn (length a) (a ++ b) = a.
Proof. rewrite firstn_app, Nat.sub_diag, firstn_all. simpl. apply app_nil_r. Qed.

Lemma balanced_prefix (s a b : list ascii) : balanced s -> s = a ++ b -> 0 <= depth a.
Proof.
  intros (_ & H) ->. specialize (H (length a)). rewrite firstn_prefix in H. exact H.
Qed.

Lemma depth_firstn_single (n : nat) (c : ascii) :
  depth (firstn n [c]) = 0 \/ depth (firstn n [c]) = bump c.
Proof.
  destruct n as [|n]; [left; reflexivity|right].
  rewrite firstn_cons, firstn_nil, depth_cons. simpl depth. lia.
Qed.

Lemma depth_firstn_operator (n : nat) (c : ascii) (r : list ascii) :
  bump c = 0 -> (forall k : nat, 0 <= depth (firstn k r)) ->
  0 <= depth (firstn n (c :: r)).
Proof.
  intros Hc Hr. destruct n as [|k]; [simpl; lia|].
  rewrite firstn_cons, depth_cons, Hc. specialize (Hr k). lia.
Qed.

Lemma well_formed_balanced (s : list ascii) : well_formed s -> balanced s.
Proof.
  induction 1 as [s val _ Hp|s _ (D & Pre)|l r _ (Dl & Pl) _ (Dr & Pr)|l r _ (Dl & Pl) _ (Dr & Pr)].
  - split; [apply depth_plain; exact Hp|].
    intros n. rewrite depth_plain; [lia|].
    rewrite <- (firstn_skipn n s) in Hp. apply Forall_app in Hp. tauto.
  - split.
    + rewrite depth_cons, depth_app, D, bump_open. reflexivity.
    + intros [|n]; [simpl; lia|].
      rewrite firstn_cons, depth_cons, firstn_app, depth_app, bump_open.
      specialize (Pre n).
      destruct (depth_firstn_single (n - length s) ")") as [E|E]; rewrite E;
        [|rewrite bump_close]; lia.
  - split.
    + rewrite depth_app, depth_cons, Dl, Dr. reflexivity.
    + intros n. rewrite firstn_app, depth_app. specialize (Pl n).
      pose proof (depth_firstn_operator (n - length l) "+" r eq_refl Pr). lia.
  - split.
    + rewrite depth_app, depth_cons, Dl, Dr. reflexivity.
    + intros n. rewrite firstn_app, depth_app. specialize (Pl n).
      pose proof (depth_firstn_operator (n - length l) "*" r eq_refl Pr). lia.
Qed.

Lemma well_formed_depth (s : list ascii) : well_formed s -> depth s = 0.
Proof. intros H. apply well_formed_balanced in H. apply H. Qed.

Lemma well_formed_nonempty (s : list ascii) : well_formed s -> s <> [].
Proof.
  induction 1 as [s val F _| | |]; try (destruct l; discriminate); [|discriminate].
  intros ->. rewrite float_of_str_empty in F. discriminate F.
Qed.

Lemma plain_has_no (s a b : list ascii) (sym : ascii) :
  Forall plain_char s -> s = a ++ sym :: b -> plain_char sym.
Proof.
  intros H ->. rewrite Forall_forall in H. apply H. apply in_elt.
Qed.

(** A group cannot be cut outside parentheses. *)
Lemma group_not_cut (s a b : list ascii) (sym : ascii) :
  balanced s -> "("%char :: s ++ [")"%char] = a ++ sym :: b ->
  sym <> "("%char -> sym <> ")"%char -> depth a <> 0.
Proof.
  intros B E N1 N2 Z0. destruct a as [|c a]; simpl in E; injection E as <- E.
  - congruence.
  - change (s ++ [")"%char]) with (s ++ ")"%char :: []) in E.
    destruct (cut_cases _ _ _ _ _ _ E) as [(_ & <- & _)|[(m & _ & Em)|(m & Es & _)]].
    + congruence.
    + destruct m; discriminate Em.
    + pose proof (balanced_prefix _ a (sym :: m) B Es).
      rewrite depth_cons, bump_open in Z0. lia.
Qed.

(** A well-formed string cut at an operator outside parentheses gives two
    well-formed strings. *)
Lemma well_formed_split (s : list ascii) :
  well_formed s ->
  forall a b sym, s = a ++ sym :: b -> sym = "+"%char \/ sym = "*"%char ->
    depth a = 0 -> well_formed a /\ well_formed b.
Proof.
  induction 1 as [s val _ Hp|s Hs _|l r Hl IHl Hr IHr|l r Hl IHl Hr IHr];
    intros a b sym E Hsym Z0.
  - exfalso. destruct (plain_has_no _ _ _ _ Hp E) as (_ & _ & N1 & N2).
    destruct Hsym; congruence.
  - exfalso. apply (group_not_cut s a b sym (well_formed_balanced _ Hs) E);
      [destruct Hsym; subst; discriminate..|exact Z0].
  - destruct (cut_cases _ _ _ _ _ _ E) as [(-> & _ & ->)|[(m & -> & ->)|(m & -> & ->)]].
    + auto.
    + rewrite depth_app, depth_cons, (well_formed_depth _ Hl) in Z0.
      change (bump "+") with 0 in Z0.
      destruct (IHr m b sym eq_refl Hsym ltac:(lia)) as (Hm & Hb).
      split; [apply wf_add; assumption|exact Hb].
    + destruct (IHl a m sym eq_refl Hsym Z0) as (Ha & Hm).
      split; [exact Ha|apply wf_add; assumption].
  - destruct (cut_cases _ _ _ _ _ _ E) as [(-> & _ & ->)|[(m & -> & ->)|(m & -> & ->)]].
    + auto.
    + rewrite depth_app, depth_cons, (well_formed_depth _ Hl) in Z0.
      change (bump "*") with 0 in Z0.
      destruct (IHr m b sym eq_refl Hsym ltac:(lia)) as (Hm & Hb).
      split; [apply wf_mul; assumption|exact Hb].
    + destruct (IHl a m sym eq_refl Hsym Z0) as (Ha & Hm).
      split; [exact Ha|apply wf_mul; assumption].
Qed.

(** Two well-formed strings joined by an operator are no group: the
    parenthesis that opens the left one is closed inside it. *)
Lemma joined_not_group (l r s : list ascii) (sym : ascii) :
  well_formed l -> sym <> ")"%char ->
  l ++ sym :: r = "("%char :: s ++ [")"%char] -> ~ balanced s.
Proof.
  intros Hl N E B. pose proof (well_formed_nonempty _ Hl) as Nl.
  destruct l as [|c l]; [congruence|]. simpl in E. injection E as -> E.
  change (s ++ [")"%char]) with (s ++ ")"%char :: []) in E.
  apply well_formed_depth in Hl. rewrite depth_cons, bump_open in Hl.
  destruct (cut_cases _ _ _ _ _ _ E) as [(_ & D & _)|[(m & Es & _)|(m & _ & Em)]].
  - congruence.
  - pose proof (balanced_prefix _ l (sym :: m) B Es). lia.
  - destruct m; discriminate Em.
Qed.

(** A well-formed string that is one group has a well-formed interior. *)
Lemma well_formed_interior (s : list ascii) :
  well_formed ("("%char :: s ++ [")"%char]) -> balanced s -> well_formed s.
Proof.
  intros H B. remember ("("%char :: s ++ [")"%char]) as e eqn:E.
  destruct H as [e val _ Hp|e He|l r Hl Hr|l r Hl Hr].
  - exfalso. subst e. inversion Hp as [|? ? (N & _) _]. congruence.
  - injection E as E. apply app_inj_tail in E as (-> & _). exact He.
  - exfalso. apply (joined_not_group l r s "+" Hl ltac:(discriminate) E B).
  - exfalso. apply (joined_not_group l r s "*" Hl ltac:(discriminate) E B).
Qed.

Lemma naked_symbol_search_some (targets a b : list ascii) (sym : ascii) :
  In sym targets -> sym <> "("%char -> sym <> ")"%char -> depth a = 0 ->
  naked_symbol_search (a ++ sym :: b) targets <> -1.
Proof.
  intros Hin N1 N2 Z0. unfold naked_symbol_search.
  destruct (naked_symbol_loop_spec targets (a ++ sym :: b) 0 0)
    as [(_ & No)|(a1 & sym1 & b1 & E & R & _)].
  - exfalso. apply (No a sym b eq_refl Hin N1 N2). lia.
  - rewrite R. pose proof (len_nonneg a1). lia.
Qed.

(** ** [compiler.py] parses every well-formed string *)

Lemma split_some (X Y : result Op) (mk : Op -> Op -> Op) (o : option Op) :
  (l <- X ;; r <- Y ;; Return (Some (mk l r))) = Return o ->
  exists l r, X = Return l /\ Y = Return r /\ o = Some (mk l r).
Proof.
  intros H. apply bind_return_inv in H as (l & Hl & H).
  apply bind_return_inv in H as (r & Hr & H). injection H as <-. eauto.
Qed.

Lemma compiler_Paren_match_cases (P : list ascii -> result Op) (expr : list ascii) :
  expr = []
  \/ (exists interior, expr = "("%char :: interior ++ [")"%char] /\ balanced interior
        /\ compiler.Paren_match P expr = (op <- P interior ;; Return (Some op)))
  \/ (expr <> [] /\ ~ partners expr /\ compiler.Paren_match P expr = Return None).
Proof.
  unfold compiler.Paren_match.
  destruct (paren_shape expr) as [->|[(i & ->)|(c & s & d & E & G0 & G1 & N)]].
  - left. reflexivity.
  - right. rewrite Paren_match_compiler_group.
    destruct (Z.eqb_spec (paren_loop 0 i) 0) as [B|B].
    + left. exists i. apply paren_loop_balanced in B. auto.
    + right. split; [discriminate|]. split; [|reflexivity].
      intros (i' & E' & B'). injection E' as E'. apply app_inj_tail in E' as (<- & _).
      apply paren_loop_balanced in B'. contradiction.
  - right. right. split; [intros ->; destruct s; discriminate E|]. split.
    + intros (i & -> & _). rewrite getitem_first in G0. injection G0 as <-.
      change ("("%char :: i ++ [")"%char]) with (("("%char :: i) ++ [")"%char]) in G1.
      rewrite getitem_last in G1. injection G1 as <-. tauto.
    + unfold Paren_match_compiler. rewrite G0. simpl bind.
      destruct (Ascii.eqb_spec c "("); [|reflexivity].
      rewrite G1. simpl bind. destruct (Ascii.eqb_spec d ")"); [tauto|reflexivity].
Qed.

Lemma compiler_parses_well_formed_aux (n : nat) :
  forall s, (length s <= n)%nat -> well_formed s ->
    (exists a, Add_match compiler.parse_expr s = Return a)
    /\ (exists m, Mul_match compiler.parse_expr s = Return m)
    /\ (exists p, compiler.Paren_match compiler.parse_expr s = Return p)
    /\ (exists op, compiler.parse_expr s = Return op).
Proof.
  induction n as [|n IH]; intros s Hlen Hwf.
  { pose proof (well_formed_nonempty _ Hwf). destruct s; [congruence|simpl in Hlen; lia]. }
  assert (Sub : forall x, (length x < length s)%nat -> well_formed x ->
            exists op, compiler.parse_expr x = Return op).
  { intros x Hx Wx. apply (IH x); [lia|exact Wx]. }
  assert (HA : exists a, Add_match compiler.parse_expr s = Return a).
  { destruct (Add_match_cases compiler.parse_expr s) as [(_ & E)|(a & b & Es & Z0 & _ & E)];
      rewrite E; [eauto|].
    destruct (well_formed_split s Hwf a b "+" Es (or_introl eq_refl) Z0) as (Wa & Wb).
    subst s. rewrite length_app in Sub. simpl in Sub.
    destruct (Sub a ltac:(lia) Wa) as (l & ->).
    destruct (Sub b ltac:(lia) Wb) as (r & ->). simpl. eauto. }
  assert (HM : exists m, Mul_match compiler.parse_expr s = Return m).
  { destruct (Mul_match_cases compiler.parse_expr s) as [(_ & E)|(a & b & Es & Z0 & _ & E)];
      rewrite E; [eauto|].
    destruct (well_formed_split s Hwf a b "*" Es (or_intror eq_refl) Z0) as (Wa & Wb).
    subst s. rewrite length_app in Sub. simpl in Sub.
    destruct (Sub a ltac:(lia) Wa) as (l & ->).
    destruct (Sub b ltac:(lia) Wb) as (r & ->). simpl. eauto. }
  assert (HP : exists p, compiler.Paren_match compiler.parse_expr s = Return p).
  { destruct (compiler_Paren_match_cases compiler.parse_expr s)
      as [->|[(i & Es & B & E)|(_ & _ & E)]]; [|rewrite E..]; [|  |eauto].
    - exfalso. exact (well_formed_nonempty _ Hwf eq_refl).
    - subst s. pose proof (well_formed_interior i Hwf B) as Wi.
      destruct (Sub i) as (op & ->); [simpl; rewrite length_app; simpl; lia|exact Wi|].
      simpl. eauto. }
  repeat (split; [assumption|]).
  destruct HA as (a & HA), HM as (m & HM), HP as (p & HP).
  rewrite compiler_parse_expr_eq, parse_expr_body_spec, HA, HM, HP.
  destruct Hwf as [s val F Hp|s Hs|l r Hl Hr|l r Hl Hr].
  - rewrite F. destruct a, m, p; eauto.
  - unfold compiler.Paren_match in HP. rewrite Paren_match_compiler_group in HP.
    rewrite (proj2 (Z.eqb_eq _ _) (proj2 (paren_loop_balanced s) (well_formed_balanced _ Hs))) in HP.
    apply bind_return_inv in HP as (op & _ & HP). injection HP as <-.
    destruct a, m; eauto.
  - destruct (Add_match_cases compiler.parse_expr (l ++ "+"%char :: r))
      as [(No & _)|(a' & b' & _ & _ & _ & E)].
    + exfalso. revert No. apply naked_symbol_search_some;
        [left; reflexivity|discriminate..|apply well_formed_depth; exact Hl].
    + rewrite E in HA. apply split_some in HA as (x & y & _ & _ & ->). eauto.
  - destruct (Mul_match_cases compiler.parse_expr (l ++ "*"%char :: r))
      as [(No & _)|(a' & b' & _ & _ & _ & E)].
    + exfalso. revert No. apply naked_symbol_search_some;
        [left; reflexivity|discriminate..|apply well_formed_depth; exact Hl].
    + rewrite E in HM. apply split_some in HM as (x & y & _ & _ & ->).
      destruct a; eauto.
Qed.

(** On a well-formed string no matcher of [compiler.py] raises, and
    [parse_expr] returns a tree. *)
Lemma compiler_parses_well_formed (s : list ascii) :
  well_formed s ->
  (exists a, Add_match compiler.parse_expr s = Return a)
  /\ (exists m, Mul_match compiler.parse_expr s = Return m)
  /\ (exists p, compiler.Paren_match compiler.parse_expr s = Return p)
  /\ (exists op, compiler.parse_expr s = Return op).
Proof. apply (compiler_parses_well_formed_aux (length s)). lia. Qed.

(** ** Valid expressions as text *)

Lemma render_well_formed :
  (forall s, valid_sum s -> well_formed (render_sum s))
  /\ (forall p, valid_product p -> well_formed (render_product p))
  /\ (forall a, valid_atom a -> well_formed (render_atom a)).
Proof.
  apply syntax_ind; simpl.
  - auto.
  - intros p IHp rest IHrest (Vp & Vr). apply wf_add; auto.
  - auto.
  - intros a IHa rest IHrest (Va & Vr). apply wf_mul; auto.
  - intros text H. apply (wf_literal text (numeral_value text));
      [apply numeral_value_spec; exact H|apply numeral_plain; exact H].
  - intros s IH V. apply wf_group. auto.
Qed.

Lemma atom_no_naked (a : atom) (sym : ascii) :
  valid_atom a -> sym = "+"%char \/ sym = "*"%char -> no_naked sym (render_atom a).
Proof.
  intros V Hsym x y E. destruct a as [text|s]; simpl in E, V.
  - apply numeral_plain in V. destruct (plain_has_no _ _ _ _ V E) as (_ & _ & N1 & N2).
    destruct Hsym; congruence.
  - apply (group_not_cut (render_sum s) x y sym); [|exact E|destruct Hsym; subst; discriminate..].
    apply well_formed_balanced, render_well_formed, V.
Qed.

Lemma product_no_naked_plus (p : product) :
  valid_product p -> no_naked "+" (render_product p).
Proof.
  induction p as [a|a rest IH]; simpl; intros V.
  - apply atom_no_naked; auto.
  - destruct V as (Va & Vr). intros x y E.
    destruct (cut_cases _ _ _ _ _ _ E) as [(_ & D & _)|[(m & -> & Er)|(m & Ea & _)]].
    + discriminate D.
    + rewrite depth_app, depth_cons.
      rewrite (well_formed_depth _ (proj2 (proj2 render_well_formed) a Va)).
      change (bump "*") with 0. specialize (IH Vr m y Er). lia.
    + exact (atom_no_naked a "+" Va (or_introl eq_refl) x m Ea).
Qed.

Lemma naked_symbol_search_no_naked (sym : ascii) (s : list ascii) :
  no_naked sym s -> naked_symbol_search s [sym] = -1.
Proof.
  intros H. apply naked_symbol_search_none.
  intros a sym' b E Hin _ _. apply in_singleton in Hin. subst sym'. exact (H a b E).
Qed.

Lemma Add_match_at (P : list ascii -> result Op) (a b : list ascii) :
  depth a = 0 -> no_naked "+" a ->
  Add_match P (a ++ "+"%char :: b) = (l <- P a ;; r <- P b ;; Return (Some (Add l r))).
Proof.
  intros Z0 No. unfold Add_match.
  rewrite naked_symbol_search_found;
    [|left; reflexivity|discriminate|discriminate|exact Z0|].
  - rewrite len_not_minus_one, slice_prefix, slice_suffix. reflexivity.
  - intros a' sym' b' E Hin _ _. apply in_singleton in Hin. subst sym'. exact (No a' b' E).
Qed.

Lemma Mul_match_at (P : list ascii -> result Op) (a b : list ascii) :
  depth a = 0 -> no_naked "*" a ->
  Mul_match P (a ++ "*"%char :: b) = (l <- P a ;; r <- P b ;; Return (Some (Mul l r))).
Proof.
  intros Z0 No. unfold Mul_match.
  rewrite naked_symbol_search_found;
    [|left; reflexivity|discriminate|discriminate|exact Z0|].
  - rewrite len_not_minus_one, slice_prefix, slice_suffix. reflexivity.
  - intros a' sym' b' E Hin _ _. apply in_singleton in Hin. subst sym'. exact (No a' b' E).
Qed.

Lemma Add_match_no_naked (P : list ascii -> result Op) (s : list ascii) :
  no_naked "+" s -> Add_match P s = Return None.
Proof.
  intros H. unfold Add_match. rewrite (naked_symbol_search_no_naked _ _ H). reflexivity.
Qed.

Lemma Mul_match_no_naked (P : list ascii -> result Op) (s : list ascii) :
  no_naked "*" s -> Mul_match P s = Return None.
Proof.
  intros H. unfold Mul_match. rewrite (naked_symbol_search_no_naked _ _ H). reflexivity.
Qed.

(** ** The reference evaluator *)

Section Reference.

Variable V : Type.
Variable constant : float -> V.
Variable add mul : V -> V -> V.

Hypothesis add_assoc : forall x y z, add x (add y z) = add (add x y) z.
Hypothesis mul_assoc : forall x y z, mul x (mul y z) = mul (mul x y) z.

Lemma codegen_reference (op : Op) (irb : unit) :
  codegen V unit constant (fun l r irb => (add l r, irb)) (fun l r irb => (mul l r, irb)) op irb
  = (evaluate V constant add mul op, irb).
Proof.
  unfold evaluate. revert irb.
  induction op as [l IHl r IHr|l IHl r IHr|val]; intros []; simpl.
  - rewrite (IHl tt). simpl. rewrite (IHr tt). reflexivity.
  - rewrite (IHl tt). simpl. rewrite (IHr tt). reflexivity.
  - reflexivity.
Qed.

Lemma evaluate_Add (l r : Op) :
  evaluate V constant add mul (Add l r)
  = add (evaluate V constant add mul l) (evaluate V constant add mul r).
Proof.
  unfold evaluate at 1. simpl. rewrite !codegen_reference. reflexivity.
Qed.

Lemma evaluate_Mul (l r : Op) :
  evaluate V constant add mul (Mul l r)
  = mul (evaluate V constant add mul l) (evaluate V constant add mul r).
Proof.
  unfold evaluate at 1. simpl. rewrite !codegen_reference. reflexivity.
Qed.

Lemma sum_from_add (s : sum) :
  forall acc, sum_from V constant add mul acc s = add acc (sum_value V constant add mul s).
Proof.
  induction s as [p|p rest IH]; intros acc; simpl; [reflexivity|].
  rewrite IH, (IH (product_value V constant add mul p)). symmetry. apply add_assoc.
Qed.

Lemma product_from_mul (p : product) :
  forall acc, product_from V constant add mul acc p
              = mul acc (product_value V constant add mul p).
Proof.
  induction p as [a|a rest IH]; intros acc; simpl; [reflexivity|].
  rewrite IH, (IH (atom_value V constant add mul a)). symmetry. apply mul_assoc.
Qed.

(** [compiler.py] parses the text of a valid expression into a tree whose
    value is the standard value of the expression. *)
Lemma compiler_parse_render :
  (forall s, valid_sum s ->
     exists op, compiler.parse_expr (render_sum s) = Return op
       /\ evaluate V constant add mul op = sum_value V constant add mul s)
  /\ (forall p, valid_product p ->
        exists op, compiler.parse_expr (render_product p) = Return op
          /\ evaluate V constant add mul op = product_value V constant add mul p)
  /\ (forall a, valid_atom a ->
        exists op, compiler.parse_expr (render_atom a) = Return op
          /\ evaluate V constant add mul op = atom_value V constant add mul a).
Proof.
  destruct render_well_formed as (Ws & Wp & Wa).
  apply syntax_ind.
  - intros p IH Vp. exact (IH Vp).
  - intros p IHp rest IHrest (Vp & Vr).
    destruct (IHp Vp) as (tp & Ep & Hp). destruct (IHrest Vr) as (tr & Er & Hr).
    exists (Add tp tr). split.
    + assert (W : well_formed (render_sum (SumCons p rest)))
        by (apply Ws; split; assumption).
      destruct (compiler_parses_well_formed _ W) as (_ & (m & HM) & (q & HP) & _).
      rewrite compiler_parse_expr_eq, parse_expr_body_spec, HM, HP.
      simpl render_sum.
      rewrite Add_match_at, Ep, Er;
        [reflexivity|apply well_formed_depth, Wp, Vp|apply product_no_naked_plus, Vp].
    + rewrite evaluate_Add, Hp, Hr. simpl. rewrite sum_from_add. reflexivity.
  - intros a IH Va. exact (IH Va).
  - intros a IHa rest IHrest (Va & Vr).
    destruct (IHa Va) as (ta & Ea & Ha). destruct (IHrest Vr) as (tr & Er & Hr).
    exists (Mul ta tr). split.
    + assert (W : well_formed (render_product (ProductCons a rest)))
        by (apply Wp; split; assumption).
      destruct (compiler_parses_well_formed _ W) as (_ & _ & (q & HP) & _).
      rewrite compiler_parse_expr_eq, parse_expr_body_spec, HP.
      rewrite Add_match_no_naked
        by (apply (product_no_naked_plus (ProductCons a rest)); split; assumption).
      simpl render_product.
      rewrite Mul_match_at, Ea, Er;
        [reflexivity|apply well_formed_depth, Wa, Va
        |apply atom_no_naked; [exact Va|right; reflexivity]].
    + rewrite evaluate_Mul, Ha, Hr. simpl. rewrite product_from_mul. reflexivity.
  - intros text H. exists (Constant (numeral_value text)). split; [|reflexivity].
    rewrite compiler_parse_expr_eq, parse_expr_body_spec.
    rewrite Add_match_no_naked
      by (apply (atom_no_naked (Numeral text)); [exact H|left; reflexivity]).
    rewrite Mul_match_no_naked
      by (apply (atom_no_naked (Numeral text)); [exact H|right; reflexivity]).
    simpl render_atom.
    destruct (compiler_Paren_match_cases compiler.parse_expr text)
      as [E|[(i & E & _)|(_ & _ & E)]].
    + apply numeral_chars in H as (Ne & _). congruence.
    + apply numeral_plain in H. rewrite E in H. inversion H as [|? ? (N & _) _]. congruence.
    + rewrite E, (numeral_value_spec text H). reflexivity.
  - intros s IH Vs. destruct (IH Vs) as (t & Et & Ht). exists t. split; [|exact Ht].
    pose proof (well_formed_balanced _ (Ws s Vs)) as B.
    rewrite compiler_parse_expr_eq, parse_expr_body_spec.
    rewrite Add_match_no_naked
      by (apply (atom_no_naked (Group s)); [exact Vs|left; reflexivity]).
    rewrite Mul_match_no_naked
      by (apply (atom_no_naked (Group s)); [exact Vs|right; reflexivity]).
    simpl render_atom. unfold compiler.Paren_match.
    rewrite Paren_match_compiler_group.
    rewrite (proj2 (Z.eqb_eq _ _) (proj2 (paren_loop_balanced _) B)), Et. reflexivity.
Qed.

End Reference.

(** ** What a returned tree was built from *)

Section Consumes.

Variable Paren_match : (list ascii -> result Op) -> list ascii -> result (option Op).
Variable parse_expr : list ascii -> result Op.

Hypothesis parse_expr_eq :
  forall expr, parse_expr expr = parse_expr_body Paren_match parse_expr expr.

Hypothesis Paren_match_some :
  forall P expr op, Paren_match P expr = Return (Some op) ->
    exists interior, expr = "("%char :: interior ++ [")"%char] /\ P interior = Return op.

(** The matcher whose result [parse_expr] returned: the first one, in the
    order [Add], [Mul], [Paren], [Constant], that did not return [None]. *)
Lemma parse_expr_return_cases (expr : list ascii) (op : Op) :
  parse_expr expr = Return op ->
  Add_match parse_expr expr = Return (Some op)
  \/ (Add_match parse_expr expr = Return None
      /\ Mul_match parse_expr expr = Return (Some op))
  \/ (Add_match parse_expr expr = Return None
      /\ Mul_match parse_expr expr = Return None
      /\ Paren_match parse_expr expr = Return (Some op))
  \/ (Add_match parse_expr expr = Return None
      /\ Mul_match parse_expr expr = Return None
      /\ Paren_match parse_expr expr = Return None
      /\ exists val, Py.float_of_str expr = Some val /\ op = Constant val).
Proof.
  rewrite parse_expr_eq, parse_expr_body_spec.
  destruct (Add_match parse_expr expr) as [a|]; [|discriminate].
  destruct (Mul_match parse_expr expr) as [m|]; [|discriminate].
  destruct (Paren_match parse_expr expr) as [p|]; [|discriminate].
  destruct a as [t|]; [intros [= ->]; auto|].
  destruct m as [t|]; [intros [= ->]; auto|].
  destruct p as [t|]; [intros [= ->]; auto 6|].
  destruct (Py.float_of_str expr) as [val|]; [|discriminate].
  intros [= <-]. right. right. right. eauto 8.
Qed.

Lemma parse_expr_consumes_aux (n : nat) :
  forall expr op, length expr = n -> parse_expr expr = Return op -> consumes op expr.
Proof.
  induction n as [n IH] using lt_wf_ind. intros expr op Hn H.
  destruct (parse_expr_return_cases expr op H)
    as [HA|[(_ & HM)|[(_ & _ & HP)|(_ & _ & _ & val & HC & ->)]]].
  - apply Add_match_some in HA as (a & b & l & r & -> & _ & Hl & Hr & ->).
    rewrite length_app in Hn. simpl in Hn.
    apply consumes_add; [apply (IH (length a))|apply (IH (length b))]; auto; lia.
  - apply Mul_match_some in HM as (a & b & l & r & -> & _ & Hl & Hr & ->).
    rewrite length_app in Hn. simpl in Hn.
    apply consumes_mul; [apply (IH (length a))|apply (IH (length b))]; auto; lia.
  - apply Paren_match_some in HP as (i & -> & Hi).
    simpl in Hn. rewrite length_app in Hn. simpl in Hn.
    apply consumes_group. apply (IH (length i)); auto; lia.
  - apply consumes_constant. exact HC.
Qed.

Lemma parse_expr_consumes (expr : list ascii) (op : Op) :
  parse_expr expr = Return op -> consumes op expr.
Proof. apply (parse_expr_consumes_aux (length expr)). reflexivity. Qed.

End Consumes.

Lemma parser_parse_expr_consumes (expr : list ascii) (op : Op) :
  parser.parse_expr expr = Return op -> consumes op expr.
Proof.
  apply (parse_expr_consumes parser.Paren_match parser.parse_expr
           parser_parse_expr_eq Paren_match_parser_some).
Qed.

Lemma compiler_parse_expr_consumes (expr : list ascii) (op : Op) :
  compiler.parse_expr expr = Return op -> consumes op expr.
Proof.
  apply (parse_expr_consumes compiler.Paren_match compiler.parse_expr
           compiler_parse_expr_eq).
  intros P e t H. apply Paren_match_compiler_some in H as (i & E & _ & Hi). eauto.
Qed.

Lemma consumes_nonempty (op : Op) (s : list ascii) : consumes op s -> s <> [].
Proof.
  induction 1 as [l r sl sr _ _ _ _|l r sl sr _ _ _ _|op s _ _|s val F];
    try (destruct sl; discriminate); [discriminate|].
  intros ->. rewrite float_of_str_empty in F. discriminate F.
Qed.

(** ** The text of a tree is not an expression *)

Lemma rstrip_cons (c : ascii) (r : list ascii) :
  Py.float_space c = false -> Py.rstrip (c :: r) = c :: Py.rstrip r.
Proof. intros H. simpl. destruct (Py.rstrip r); [rewrite H|]; reflexivity. Qed.

(** [float] accepts no string that starts with a capital [A] or [M]. *)
Lemma float_of_str_capital (c : ascii) (r : list ascii) :
  c = "A"%char \/ c = "M"%char -> Py.float_of_str (c :: r) = None.
Proof.
  intros [-> | ->]; unfold Py.float_of_str, Py.strip;
    simpl Py.lstrip; rewrite rstrip_cons by reflexivity;
    simpl Py.drop_underscores;
    destruct (Py.drop_underscores _ (Py.rstrip r)) as [t|]; reflexivity.
Qed.

Lemma consumes_head (op : Op) (s : list ascii) :
  consumes op s -> exists c r, s = c :: r /\ c <> "A"%char /\ c <> "M"%char.
Proof.
  induction 1 as [l r sl sr _ (c & x & -> & N) _ _|l r sl sr _ (c & x & -> & N) _ _|op s _ _|s val F].
  - exists c, (x ++ "+"%char :: sr). auto.
  - exists c, (x ++ "*"%char :: sr). auto.
  - exists "("%char, (s ++ [")"%char]). split; [reflexivity|]. split; discriminate.
  - destruct s as [|c r]; [rewrite float_of_str_empty in F; discriminate F|].
    exists c, r. split; [reflexivity|].
    split; intros ->; rewrite float_of_str_capital in F by auto; discriminate F.
Qed.

(** ** The characters [float] accepts *)

Lemma space_literal (c : ascii) : Py.float_space c = true -> literal_char c.
Proof. intros H. repeat split; intros ->; discriminate H. Qed.

Lemma lower_literal (c : ascii) : literal_char (Py.lower c) -> literal_char c.
Proof.
  intros (A & B & C). repeat split; intros ->; [apply A|apply B|apply C]; reflexivity.
Qed.

Lemma digits_literal (d : list ascii) : digits d -> Forall literal_char d.
Proof.
  intros H. eapply Forall_impl; [|exact H]. intros c Hc.
  destruct (numeral_char_facts c (or_introl Hc)) as ((A & B & _ & C) & _).
  repeat split; assumption.
Qed.

Lemma lstrip_chars (s : list ascii) :
  Forall literal_char (Py.lstrip s) -> Forall literal_char s.
Proof.
  induction s as [|c r IH]; simpl; [auto|].
  destruct (Py.float_space c) eqn:E; [|auto].
  intros H. constructor; [apply space_literal; exact E|auto].
Qed.

Lemma rstrip_chars (s : list ascii) :
  Forall literal_char (Py.rstrip s) -> Forall literal_char s.
Proof.
  induction s as [|c r IH]; simpl; [auto|].
  destruct (Py.rstrip r) as [|x r'].
  - destruct (Py.float_space c) eqn:E; intros H.
    + constructor; [apply space_literal; exact E|auto].
    + inversion H; subst. constructor; auto.
  - intros H. inversion H; subst. constructor; auto.
Qed.

Lemma drop_underscores_chars (s : list ascii) :
  forall prev t, Py.drop_underscores prev s = Some t ->
    Forall literal_char t -> Forall literal_char s.
Proof.
  induction s as [|c r IH]; intros prev t; simpl; [auto|].
  destruct (Ascii.eqb_spec c "_") as [->|N].
  - destruct (Py.is_digit prev); [|discriminate]. intros H Ht.
    constructor; [repeat split; discriminate|eauto].
  - destruct (Ascii.eqb prev "_" && negb (Py.is_digit c)); [discriminate|].
    destruct (Py.drop_underscores c r) as [t'|] eqn:E; [|discriminate].
    intros [= <-] Ht. inversion Ht; subst. constructor; eauto.
Qed.

Lemma split_sign_chars (t body : list ascii) (neg : bool) :
  Py.split_sign t = (neg, body) -> Forall literal_char body -> Forall literal_char t.
Proof.
  destruct t as [|c r]; simpl; [intros [= _ <-]; auto|].
  destruct (Ascii.eqb_spec c "+") as [->|_].
  { intros [= _ <-] H. constructor; [repeat split; discriminate|exact H]. }
  destruct (Ascii.eqb_spec c "-") as [->|_].
  { intros [= _ <-] H. constructor; [repeat split; discriminate|exact H]. }
  intros [= _ <-]. auto.
Qed.

Lemma span_digits_spec (s : list ascii) :
  forall d r, Py.span_digits s = (d, r) -> s = d ++ r /\ digits d.
Proof.
  induction s as [|c s IH]; simpl; intros d r.
  - intros [= <- <-]. split; [reflexivity|constructor].
  - destruct (Py.is_digit c) eqn:E.
    + destruct (Py.span_digits s) as (d', t). intros [= <- <-].
      destruct (IH d' t eq_refl) as (-> & Hd). split; [reflexivity|].
      constructor; assumption.
    + intros [= <- <-]. split; [reflexivity|constructor].
Qed.

Lemma same_text_eq (a b : list ascii) : Py.same_text a b = true -> a = b.
Proof.
  revert b. induction a as [|x a IH]; intros [|y b]; simpl; try discriminate; [reflexivity|].
  intros H. apply andb_prop in H as (H1 & H2).
  apply Ascii.eqb_eq in H1. subst. f_equal. auto.
Qed.

Lemma word_chars (body : list ascii) (w : string) :
  Forall literal_char (py w) -> Py.same_text (map Py.lower body) (py w) = true ->
  Forall literal_char body.
Proof.
  intros Hw E. apply same_text_eq in E. rewrite <- E in Hw.
  rewrite Forall_map in Hw. eapply Forall_impl; [|exact Hw].
  intros c. apply lower_literal.
Qed.

Lemma parse_exponent_chars (s : list ascii) (e : Z) :
  Py.parse_exponent s = Some e -> Forall literal_char s.
Proof.
  destruct s as [|c r]; simpl; [auto|].
  destruct (Ascii.eqb_spec (Py.lower c) "e") as [E|_]; [|discriminate].
  destruct (Py.split_sign r) as (neg, r') eqn:S.
  destruct (Py.span_digits r') as (ds, rest) eqn:D.
  destruct ds as [|d ds]; [discriminate|]. destruct rest; [|discriminate].
  intros _. apply span_digits_spec in D as (-> & Hd). rewrite app_nil_r in S.
  constructor.
  - apply lower_literal. rewrite E. repeat split; discriminate.
  - apply (split_sign_chars _ _ _ S), digits_literal, Hd.
Qed.

Lemma fraction_chars (r fp r' : list ascii) :
  Py.fraction r = (fp, r') -> Forall literal_char r' -> Forall literal_char r.
Proof.
  destruct r as [|c t]; simpl; [intros [= _ <-]; auto|].
  destruct (Ascii.eqb_spec c ".") as [->|_]; [|intros [= _ <-]; auto].
  intros D H. apply span_digits_spec in D as (-> & Hd).
  constructor; [repeat split; discriminate|].
  apply Forall_app. split; [apply digits_literal, Hd|exact H].
Qed.

Lemma parse_number_chars (body : list ascii) (x : Z * Z) :
  Py.parse_number body = Some x -> Forall literal_char body.
Proof.
  unfold Py.parse_number.
  destruct (Py.span_digits body) as (ip, r) eqn:D.
  destruct (Py.fraction r) as (fp, r') eqn:F.
  destruct (ip ++ fp); [discriminate|].
  destruct (Py.parse_exponent r') as [e|] eqn:E; [|discriminate].
  intros _. apply span_digits_spec in D as (-> & Hd).
  apply Forall_app. split; [apply digits_literal, Hd|].
  apply (fraction_chars _ _ _ F), (parse_exponent_chars _ _ E).
Qed.

(** A string that [float] accepts has no parenthesis and no [*]. *)
Lemma float_of_str_chars (s : list ascii) (val : float) :
  Py.float_of_str s = Some val -> Forall literal_char s.
Proof.
  unfold Py.float_of_str, Py.strip.
  destruct (Py.drop_underscores "000" (Py.rstrip (Py.lstrip s))) as [t|] eqn:Du;
    [|discriminate].
  destruct (Py.split_sign t) as (neg, body) eqn:S. intros H.
  apply lstrip_chars, rstrip_chars, (drop_underscores_chars _ _ _ Du),
    (split_sign_chars _ _ _ S).
  destruct (Py.same_text (map Py.lower body) (py "inf")) eqn:W1.
  { apply (word_chars body "inf"); [|exact W1].
    repeat constructor; discriminate. }
  destruct (Py.same_text (map Py.lower body) (py "infinity")) eqn:W2.
  { apply (word_chars body "infinity"); [|exact W2].
    repeat constructor; discriminate. }
  destruct (Py.same_text (map Py.lower body) (py "nan")) eqn:W3.
  { apply (word_chars body "nan"); [|exact W3].
    repeat constructor; discriminate. }
  destruct (Py.parse_number body) as [x|] eqn:N; [|discriminate].
  apply (parse_number_chars _ _ N).
Qed.

(** ** [compiler.py] parses well-formed strings only *)

Lemma depth_literal (a : list ascii) : Forall literal_char a -> depth a = 0.
Proof.
  induction 1 as [|c a (N1 & N2 & _) _ IH]; [reflexivity|].
  rewrite depth_cons, bump_other, IH by assumption. reflexivity.
Qed.

Lemma Add_match_none_no_plus (P : list ascii -> result Op) (expr : list ascii) :
  Add_match P expr = Return None -> Forall literal_char expr -> ~ In "+"%char expr.
Proof.
  intros HA L Hin. apply in_split in Hin as (a & b & ->).
  destruct (Add_match_cases P (a ++ "+"%char :: b)) as [(No & _)|(a' & b' & _ & _ & _ & E)].
  - revert No. apply naked_symbol_search_some;
      [left; reflexivity|discriminate..|].
    apply depth_literal. apply Forall_app in L. tauto.
  - rewrite E in HA. apply split_some in HA as (x & y & _ & _ & D). discriminate D.
Qed.

Lemma compiler_parse_expr_well_formed_aux (n : nat) :
  forall expr op, length expr = n -> compiler.parse_expr expr = Return op ->
    well_formed expr.
Proof.
  induction n as [n IH] using lt_wf_ind. intros expr op Hn H.
  destruct (parse_expr_return_cases _ _ compiler_parse_expr_eq expr op H)
    as [HA|[(_ & HM)|[(_ & _ & HP)|(HA & _ & _ & val & HC & ->)]]].
  - apply Add_match_some in HA as (a & b & l & r & -> & _ & Hl & Hr & ->).
    rewrite length_app in Hn. simpl in Hn.
    apply wf_add; [apply (IH (length a)) with l|apply (IH (length b)) with r]; auto; lia.
  - apply Mul_match_some in HM as (a & b & l & r & -> & _ & Hl & Hr & ->).
    rewrite length_app in Hn. simpl in Hn.
    apply wf_mul; [apply (IH (length a)) with l|apply (IH (length b)) with r]; auto; lia.
  - apply Paren_match_compiler_some in HP as (i & -> & _ & Hi).
    simpl in Hn. rewrite length_app in Hn. simpl in Hn.
    apply wf_group. apply (IH (length i)) with op; auto; lia.
  - apply (wf_literal expr val HC).
    pose proof (float_of_str_chars _ _ HC) as L.
    pose proof (Add_match_none_no_plus _ _ HA L) as Np.
    rewrite Forall_forall in *. intros c Hin.
    destruct (L c Hin) as (N1 & N2 & N3).
    repeat split; try assumption. intros ->. exact (Np Hin).
Qed.

Lemma compiler_parse_expr_well_formed (expr : list ascii) (op : Op) :
  compiler.parse_expr expr = Return op -> well_formed expr.
Proof. apply (compiler_parse_expr_well_formed_aux (length expr)). reflexivity. Qed.

(** ** The recursion never runs out of fuel *)

Lemma split_raise (X Y : result Op) (mk : Op -> Op -> Op) (e : exn) :
  (l <- X ;; r <- Y ;; Return (Some (mk l r))) = Raise e ->
  X = Raise e \/ Y = Raise e.
Proof.
  destruct X as [l|x]; simpl; [|intros [= ->]; auto].
  destruct Y as [r|y]; simpl; [discriminate|intros [= ->]; auto].
Qed.

Lemma cut_shorter (P : list ascii -> result Op) (a b : list ascii) (c : ascii) (e : exn) :
  P a = Raise e \/ P b = Raise e ->
  exists s, (length s < length (a ++ c :: b))%nat /\ P s = Raise e.
Proof.
  intros [H|H]; [exists a|exists b];
    (split; [rewrite length_app; simpl; lia|exact H]).
Qed.

(** A split matcher raises only what a recursive call on one of the two
    sides raised. *)
Lemma Add_match_raise (P : list ascii -> result Op) (expr : list ascii) (e : exn) :
  Add_match P expr = Raise e ->
  exists s, (length s < length expr)%nat /\ P s = Raise e.
Proof.
  destruct (Add_match_cases P expr) as [(_ & ->)|(a & b & -> & _ & _ & ->)];
    [discriminate|].
  intros H. apply split_raise in H. apply cut_shorter. exact H.
Qed.

Lemma Mul_match_raise (P : list ascii -> result Op) (expr : list ascii) (e : exn) :
  Mul_match P expr = Raise e ->
  exists s, (length s < length expr)%nat /\ P s = Raise e.
Proof.
  destruct (Mul_match_cases P expr) as [(_ & ->)|(a & b & -> & _ & _ & ->)];
    [discriminate|].
  intros H. apply split_raise in H. apply cut_shorter. exact H.
Qed.

Lemma group_raise (P : list ascii -> result Op) (interior : list ascii) (e : exn) :
  (op <- P interior ;; Return (Some op)) = Raise e ->
  exists s, (length s < length ("("%char :: interior ++ [")"%char]))%nat /\ P s = Raise e.
Proof.
  destruct (P interior) as [op|x] eqn:E; simpl; [discriminate|]. intros [= <-].
  exists interior. split; [simpl; rewrite length_app; simpl; lia|exact E].
Qed.

Lemma Paren_match_parser_raise (P : list ascii -> result Op) (expr : list ascii) (e : exn) :
  Paren_match_parser P expr = Raise e ->
  e = IndexError (py "string index out of range")
  \/ exists s, (length s < length expr)%nat /\ P s = Raise e.
Proof.
  destruct (paren_shape expr) as [->|[(i & ->)|(c & s & d & _ & G0 & G1 & N)]].
  - intros [= <-]. left. reflexivity.
  - rewrite Paren_match_parser_group. intros H. right. apply group_raise. exact H.
  - unfold Paren_match_parser. rewrite G0. simpl bind.
    destruct (Ascii.eqb_spec c "("); [|discriminate].
    rewrite G1. simpl bind. destruct (Ascii.eqb_spec d ")"); [tauto|discriminate].
Qed.

Lemma Paren_match_compiler_raise (P : list ascii -> result Op) (expr : list ascii) (e : exn) :
  Paren_match_compiler P expr = Raise e ->
  e = IndexError (py "string index out of range")
  \/ exists s, (length s < length expr)%nat /\ P s = Raise e.
Proof.
  destruct (paren_shape expr) as [->|[(i & ->)|(c & s & d & _ & G0 & G1 & N)]].
  - intros [= <-]. left. reflexivity.
  - rewrite Paren_match_compiler_group.
    destruct (paren_loop 0 i =? 0); [|discriminate].
    intros H. right. apply group_raise. exact H.
  - unfold Paren_match_compiler. rewrite G0. simpl bind.
    destruct (Ascii.eqb_spec c "("); [|discriminate].
    rewrite G1. simpl bind. destruct (Ascii.eqb_spec d ")"); [tauto|discriminate].
Qed.

Section Fuel.

Variable Paren_match : (list ascii -> result Op) -> list ascii -> result (option Op).
Variable parse_expr : list ascii -> result Op.

Hypothesis parse_expr_eq :
  forall expr, parse_expr expr = parse_expr_body Paren_match parse_expr expr.

Hypothesis Paren_match_raise :
  forall expr e, Paren_match parse_expr expr = Raise e ->
    e = IndexError (py "string index out of range")
    \/ exists s, (length s < length expr)%nat /\ parse_expr s = Raise e.

(** Where an exception of [parse_expr] comes from. *)
Lemma parse_expr_raise_cases (expr : list ascii) (e : exn) :
  parse_expr expr = Raise e ->
  e = ValueError (could_not_parse expr)
  \/ e = IndexError (py "string index out of range")
  \/ exists s, (length s < length expr)%nat /\ parse_expr s = Raise e.
Proof.
  rewrite parse_expr_eq, parse_expr_body_spec.
  destruct (Add_match parse_expr expr) as [add_op|x] eqn:EA.
  2:{ intros [= <-]. right. right. apply Add_match_raise. exact EA. }
  destruct (Mul_match parse_expr expr) as [mul_op|x] eqn:EM.
  2:{ intros [= <-]. right. right. apply Mul_match_raise. exact EM. }
  destruct (Paren_match parse_expr expr) as [paren_op|x] eqn:EP.
  2:{ intros [= <-]. right. apply Paren_match_raise. exact EP. }
  destruct add_op, mul_op, paren_op, (Py.float_of_str expr); try discriminate.
  intros [= <-]. left. reflexivity.
Qed.

Lemma parse_expr_no_RecursionError_aux (n : nat) :
  forall expr, length expr = n -> parse_expr expr <> Raise RecursionError.
Proof.
  induction n as [n IH] using lt_wf_ind. intros expr Hn H.
  destruct (parse_expr_raise_cases expr _ H) as [D|[D|(s & L & Hs)]];
    try discriminate D.
  apply (IH (length s) ltac:(lia) s eq_refl Hs).
Qed.

End Fuel.

(** * The statements of the specification *)

(** ** The examples of the specification *)

Example parse_sum_of_product :
  compiler.parse_expr (py "1+2*3")
  = Return (Add (Constant 1) (Mul (Constant 2) (Constant 3))).
Proof. vm_compute. reflexivity. Qed.

Example parse_product_of_sum :
  compiler.parse_expr (py "(1+2)*3")
  = Return (Mul (Add (Constant 1) (Constant 2)) (Constant 3)).
Proof. vm_compute. reflexivity. Qed.

Example parse_repeated_sum :
  compiler.parse_expr (py "1+2+3")
  = Return (Add (Constant 1) (Add (Constant 2) (Constant 3))).
Proof. vm_compute. reflexivity. Qed.

Example parse_after_cleanup :
  compiler.parse_expr (cleanup_input (py "  3.5 ")) = Return (Constant 3.5).
Proof. vm_compute. reflexivity. Qed.

Example parse_unbalanced :
  compiler.parse_expr (py "(1+2")
  = Raise (ValueError (could_not_parse (py "(1+2"))).
Proof. vm_compute. reflexivity. Qed.

Example evaluate_examples :
  map (fun s => match compiler.parse_expr (py s) with
                | Return op => Some (evaluate float (fun x => x) PrimFloat.add PrimFloat.mul op)
                | Raise _ => None
                end) ["1+2*3"; "(1+2)*3"; "1+2+3"]%string
  = [Some 7%float; Some 9%float; Some 6%float].
Proof. vm_compute. reflexivity. Qed.

(** ** C1 *)

Lemma valid_product_of_sums : valid_sum product_of_sums.
Proof. simpl. repeat split; left; (split; [repeat constructor|discriminate]). Qed.

(** C1: [(1+2)*(3+4)] is a valid expression, and [parse_expr] of
    [parser.py] raises on it; [parse_expr] of [compiler.py] returns the
    product of the two sums. *)
Theorem parser_rejects_valid_expression :
  valid_sum product_of_sums
  /\ render_sum product_of_sums = py "(1+2)*(3+4)"
  /\ parser.parse_expr (render_sum product_of_sums)
     = Raise (ValueError (could_not_parse (py "2)*(3")))
  /\ compiler.parse_expr (render_sum product_of_sums)
     = Return (Mul (Add (Constant 1) (Constant 2)) (Add (Constant 3) (Constant 4))).
Proof.
  split; [exact valid_product_of_sums|repeat split; vm_compute; reflexivity].
Qed.

(** ** C2 *)

(** C2: on [(1+2)*(3+4)] the additive split of [parser.py] finds nothing and
    the multiplicative split matches, so the [or] chain would return its
    tree; but [parse_expr] has already called [Paren.match] for the unused
    [paren_op], and that call raises. *)
Theorem parser_first_match_not_returned :
  let product := Mul (Add (Constant 1) (Constant 2)) (Add (Constant 3) (Constant 4)) in
  Add_match parser.parse_expr (py "(1+2)*(3+4)") = Return None
  /\ Mul_match parser.parse_expr (py "(1+2)*(3+4)") = Return (Some product)
  /\ first_match parser.Paren_match parser.parse_expr (py "(1+2)*(3+4)") = Return product
  /\ parser.Paren_match parser.parse_expr (py "(1+2)*(3+4)")
     = Raise (ValueError (could_not_parse (py "2)*(3")))
  /\ parser.parse_expr (py "(1+2)*(3+4)")
     = Raise (ValueError (could_not_parse (py "2)*(3"))).
Proof. cbv zeta. repeat split; vm_compute; reflexivity. Qed.

(** ** C3 *)

(** C3: [(1+2)*(3+4)] starts with [(] and ends with [)], and the two do not
    belong together.  [Paren.match] of [parser.py] takes the string for one
    group all the same and parses [1+2)*(3+4]; that of [compiler.py] returns
    [None]. *)
Theorem parser_Paren_match_takes_non_partners :
  ~ partners (py "(1+2)*(3+4)")
  /\ (forall P, parser.Paren_match P (py "(1+2)*(3+4)")
                = (op <- P (py "1+2)*(3+4") ;; Return (Some op)))
  /\ (forall P, compiler.Paren_match P (py "(1+2)*(3+4)") = Return None).
Proof.
  split; [|split; intros P; reflexivity].
  destruct (compiler_Paren_match_cases (fun _ => Raise RecursionError) (py "(1+2)*(3+4)"))
    as [E|[(i & _ & _ & H)|(_ & N & _)]].
  - discriminate E.
  - discriminate H.
  - exact N.
Qed.

(** ** C4 *)

Lemma no_variant_raises
  (PM : (list ascii -> result Op) -> list ascii -> result (option Op))
  (parse : list ascii -> result Op) :
  (forall expr, parse expr = parse_expr_body PM parse expr) ->
  forall expr, no_variant_matches PM expr ->
    parse expr = Raise (ValueError (could_not_parse expr)).
Proof.
  intros Heq expr (HA & HM & HP & HC).
  rewrite Heq, parse_expr_body_spec, HA, HM, HP.
  unfold Constant_match in HC. destruct (Py.float_of_str expr); [discriminate HC|reflexivity].
Qed.

Lemma matcher_exception_propagates
  (PM : (list ascii -> result Op) -> list ascii -> result (option Op))
  (parse : list ascii -> result Op) :
  (forall expr, parse expr = parse_expr_body PM parse expr) ->
  raises_unchanged PM parse.
Proof.
  intros Heq expr e H. rewrite Heq, parse_expr_body_spec.
  destruct H as [HA|[(a & HA & HM)|(a & m & HA & HM & HP)]].
  - rewrite HA. reflexivity.
  - rewrite HA, HM. reflexivity.
  - rewrite HA, HM, HP. reflexivity.
Qed.

(** C4, as the code has it: when all four matchers return [None],
    [parse_expr] raises the built-in [ValueError] whose message is
    [Could not parse expr: ] followed by the string between double quotes;
    and an exception raised inside a matcher, which is where the recursive
    calls are made, is the outcome of [parse_expr] itself, in both files. *)
Theorem no_variant_raises_ValueError :
  (forall expr, no_variant_matches parser.Paren_match expr ->
     parser.parse_expr expr = Raise (ValueError (could_not_parse expr)))
  /\ (forall expr, no_variant_matches compiler.Paren_match expr ->
        compiler.parse_expr expr = Raise (ValueError (could_not_parse expr)))
  /\ raises_unchanged parser.Paren_match parser.parse_expr
  /\ raises_unchanged compiler.Paren_match compiler.parse_expr.
Proof.
  split; [apply (no_variant_raises _ _ parser_parse_expr_eq)|].
  split; [apply (no_variant_raises _ _ compiler_parse_expr_eq)|].
  split; [apply (matcher_exception_propagates _ _ parser_parse_expr_eq)|].
  apply (matcher_exception_propagates _ _ compiler_parse_expr_eq).
Qed.

Lemma no_variant_matches_letter :
  no_variant_matches parser.Paren_match (py "a")
  /\ no_variant_matches compiler.Paren_match (py "a").
Proof. split; repeat split; intros; reflexivity. Qed.

Lemma no_variant_raises_ValueError_witness :
  parser.parse_expr (py "a") = Raise (ValueError (could_not_parse (py "a")))
  /\ compiler.parse_expr (py "a") = Raise (ValueError (could_not_parse (py "a"))).
Proof.
  split.
  - apply (proj1 no_variant_raises_ValueError). apply no_variant_matches_letter.
  - apply (proj1 (proj2 no_variant_raises_ValueError)). apply no_variant_matches_letter.
Defined.

(** C4 as stated fails: no variant matches [a], and the exception that
    [parse_expr] raises does not carry the message
    [could not parse expression: a]. *)
Lemma parse_error_message_differs :
  ~ (no_variant_matches compiler.Paren_match (py "a") ->
     exists e, compiler.parse_expr (py "a") = Raise e
       /\ message e = py "could not parse expression: a")
  /\ ~ (no_variant_matches parser.Paren_match (py "a") ->
        exists e, parser.parse_expr (py "a") = Raise e
          /\ message e = py "could not parse expression: a").
Proof.
  split; intros H.
  - destruct (H (proj2 no_variant_matches_letter)) as (e & E & M).
    vm_compute in E. injection E as <-. vm_compute in M. discriminate M.
  - destruct (H (proj1 no_variant_matches_letter)) as (e & E & M).
    vm_compute in E. injection E as <-. vm_compute in M. discriminate M.
Qed.

(** ** C5 *)

(** C5: on [1+] the additive split parses [1] and then the empty right-hand
    side.  The parse fails there, but with the [IndexError] of [Paren.match]
    and not with the [ValueError] of [parse_expr]. *)
Theorem dangling_plus_raises_IndexError :
  naked_symbol_search (py "1+") ["+"%char] = 1
  /\ slice (py "1+") None (Some 1) = py "1"
  /\ slice (py "1+") (Some (1 + 1)) None = []
  /\ parser.parse_expr (py "1") = Return (Constant 1)
  /\ parser.parse_expr [] = Raise (IndexError (py "string index out of range"))
  /\ parser.parse_expr (py "1+") = Raise (IndexError (py "string index out of range"))
  /\ compiler.parse_expr (py "1+") = Raise (IndexError (py "string index out of range"))
  /\ parser.parse_expr (py "1+") <> Raise (ValueError (could_not_parse []))
  /\ compiler.parse_expr (py "1+") <> Raise (ValueError (could_not_parse [])).
Proof. repeat split; try (vm_compute; reflexivity); vm_compute; discriminate. Qed.

(** ** C6 *)

Lemma nth_error_cut (s : list ascii) (i : nat) (sym : ascii) :
  nth_error s i = Some sym ->
  exists a b, s = a ++ sym :: b /\ length a = i /\ firstn i s = a.
Proof.
  intros H. apply nth_error_split in H as (a & b & -> & <-).
  exists a, b. split; [reflexivity|]. split; [reflexivity|apply firstn_prefix].
Qed.

(** C6, as the code has it: for every string and every target set,
    [naked_symbol_search] returns the index of the first character that is
    in the target set, is not itself a parenthesis, and is met while the
    counter is zero; and [-1] when there is no such character. *)
Theorem naked_symbol_search_first_naked_target (expr targets : list ascii) :
  first_index (naked_target targets expr) (naked_symbol_search expr targets).
Proof.
  unfold naked_symbol_search, first_index, naked_target.
  destruct (naked_symbol_loop_spec targets expr 0 0)
    as [(R & No)|(a & sym & b & E & R & Hin & N1 & N2 & Z0 & Min)].
  - left. split; [exact R|].
    intros i (s & Hn & Hi & M1 & M2 & D).
    apply nth_error_cut in Hn as (a & b & E & _ & F). rewrite F in D.
    apply (No a s b E Hi M1 M2). lia.
  - right. exists (length a). split; [rewrite R; unfold len; lia|]. split.
    + exists sym. subst expr.
      rewrite nth_error_app2, Nat.sub_diag, firstn_prefix by lia.
      repeat split; first [assumption|lia].
    + intros j Hj (s & Hn & Hi & M1 & M2 & D).
      apply nth_error_cut in Hn as (a' & b' & E' & L & F). rewrite F in D.
      apply (Min a' s b' E' ltac:(lia) Hi M1 M2). lia.
Qed.

(** C6 as stated fails when the target set holds a parenthesis: in [()]
    both characters are targets, the first is met with the counter at zero
    and the second brings it back to zero, and the search returns [-1]. *)
Lemma naked_symbol_search_never_returns_parenthesis :
  naked_symbol_search (py "()") (py "()") = -1
  /\ ~ first_index (target_at_zero counter_before (py "()") (py "()"))
         (naked_symbol_search (py "()") (py "()"))
  /\ ~ first_index (target_at_zero counter_after (py "()") (py "()"))
         (naked_symbol_search (py "()") (py "()")).
Proof.
  split; [reflexivity|]. change (naked_symbol_search (py "()") (py "()")) with (-1).
  split; intros [(_ & No)|(i & E & _)]; try lia.
  - apply (No 0%nat). exists "("%char. repeat split. left. reflexivity.
  - apply (No 1%nat). exists ")"%char. repeat split. right. left. reflexivity.
Qed.

(** ** C7 *)

Lemma covers_range (expr : list ascii) (op : Op) (i j : nat) :
  covers expr op i j -> (i < j <= length expr)%nat.
Proof.
  induction 1 as [l r i k j _ IHl _ _ IHr|l r i k j _ IHl _ _ IHr
                 |op i j _ _ IH Hj|val i j Hj F]; try lia.
  - assert (j < length expr)%nat by (apply nth_error_Some; congruence). lia.
  - split; [|exact Hj].
    destruct (Nat.lt_ge_cases i j) as [L|G]; [exact L|].
    replace (j - i)%nat with 0%nat in F by lia.
    rewrite firstn_O, float_of_str_empty in F. discriminate F.
Qed.

Lemma nth_error_middle (pre post : list ascii) (c : ascii) :
  nth_error (pre ++ c :: post) (length pre) = Some c.
Proof. rewrite nth_error_app2, Nat.sub_diag by lia. reflexivity. Qed.

Lemma consumes_covers (op : Op) (s : list ascii) :
  consumes op s ->
  forall pre post,
    covers (pre ++ s ++ post) op (length pre) (length pre + length s).
Proof.
  induction 1 as [l r sl sr _ IHl _ IHr|l r sl sr _ IHl _ IHr|op s _ IH|s val F];
    intros pre post.
  - apply covers_add with (k := (length pre + length sl)%nat).
    + specialize (IHl pre ("+"%char :: sr ++ post)).
      rewrite <- app_assoc. exact IHl.
    + rewrite <- app_assoc, app_assoc, <- length_app. apply nth_error_middle.
    + specialize (IHr (pre ++ sl ++ ["+"%char]) post).
      rewrite !length_app in IHr. simpl length in IHr.
      rewrite length_app. simpl length.
      replace (S (length pre + length sl)) with (length pre + (length sl + 1))%nat by lia.
      replace (length pre + (length sl + S (length sr)))%nat
        with (length pre + (length sl + 1) + length sr)%nat by lia.
      replace (pre ++ (sl ++ "+"%char :: sr) ++ post)
        with ((pre ++ sl ++ ["+"%char]) ++ sr ++ post); [exact IHr|].
      rewrite <- !app_assoc. reflexivity.
  - apply covers_mul with (k := (length pre + length sl)%nat).
    + specialize (IHl pre ("*"%char :: sr ++ post)).
      rewrite <- app_assoc. exact IHl.
    + rewrite <- app_assoc, app_assoc, <- length_app. apply nth_error_middle.
    + specialize (IHr (pre ++ sl ++ ["*"%char]) post).
      rewrite !length_app in IHr. simpl length in IHr.
      rewrite length_app. simpl length.
      replace (S (length pre + length sl)) with (length pre + (length sl + 1))%nat by lia.
      replace (length pre + (length sl + S (length sr)))%nat
        with (length pre + (length sl + 1) + length sr)%nat by lia.
      replace (pre ++ (sl ++ "*"%char :: sr) ++ post)
        with ((pre ++ sl ++ ["*"%char]) ++ sr ++ post); [exact IHr|].
      rewrite <- !app_assoc. reflexivity.
  - simpl length. rewrite length_app. simpl length.
    replace (length pre + S (length s + 1))%nat with (S (S (length pre) + length s)) by lia.
    apply covers_group.
    + apply nth_error_middle.
    + specialize (IH (pre ++ ["("%char]) (")"%char :: post)).
      rewrite length_app in IH. simpl length in IH.
      replace (length pre + 1)%nat with (S (length pre)) in IH by lia.
      replace (pre ++ ("("%char :: s ++ [")"%char]) ++ post)
        with ((pre ++ ["("%char]) ++ s ++ ")"%char :: post); [exact IH|].
      rewrite <- !app_assoc. simpl. rewrite <- app_assoc. reflexivity.
    + replace (pre ++ ("("%char :: s ++ [")"%char]) ++ post)
        with ((pre ++ "("%char :: s) ++ ")"%char :: post).
      * replace (S (length pre) + length s)%nat with (length (pre ++ "("%char :: s)).
        -- apply nth_error_middle.
        -- rewrite length_app. simpl. lia.
      * rewrite <- !app_assoc. simpl. rewrite <- app_assoc. reflexivity.
  - apply covers_constant.
    + rewrite !length_app. lia.
    + replace (length pre + length s - length pre)%nat with (length s) by lia.
      rewrite skipn_app, skipn_all, Nat.sub_diag. simpl.
      rewrite firstn_prefix. exact F.
Qed.

(** C7: when [parse_expr] returns a tree, in either file, the tree was
    built from all of the input, from its first character to its last; and
    every node of a tree was built from an interval of the input that is not
    empty: an operator node from its left operand, the operator character
    and its right operand, a group from its interior and the parentheses
    around it, a constant from a string that [float] accepts as a whole. *)
Theorem parse_expr_consumes_input (expr : list ascii) (op : Op) :
  parser.parse_expr expr = Return op \/ compiler.parse_expr expr = Return op ->
  consumes op expr
  /\ covers expr op 0 (length expr)
  /\ forall node i j, covers expr node i j -> (i < j <= length expr)%nat.
Proof.
  intros H.
  assert (C : consumes op expr).
  { destruct H as [H|H];
      [apply parser_parse_expr_consumes|apply compiler_parse_expr_consumes]; exact H. }
  split; [exact C|]. split; [|intros node i j; apply covers_range].
  pose proof (consumes_covers op expr C [] []) as K.
  rewrite app_nil_r in K. exact K.
Qed.

Lemma parse_expr_consumes_input_witness :
  let op := Add (Constant 1) (Mul (Constant 2) (Constant 3)) in
  consumes op (py "1+2*3")
  /\ covers (py "1+2*3") op 0 5
  /\ forall node i j, covers (py "1+2*3") node i j -> (i < j <= 5)%nat.
Proof.
  apply (parse_expr_consumes_input (py "1+2*3")
           (Add (Constant 1) (Mul (Constant 2) (Constant 3)))).
  right. vm_compute. reflexivity.
Defined.

(** ** C8 *)

Lemma capital_not_parsed
  (PM : (list ascii -> result Op) -> list ascii -> result (option Op))
  (parse : list ascii -> result Op) :
  (forall expr op, parse expr = Return op -> consumes op expr) ->
  forall c r op, c = "A"%char \/ c = "M"%char -> parse (c :: r) <> Return op.
Proof.
  intros HC c r op Hc H. apply HC, consumes_head in H as (c' & r' & E & N1 & N2).
  injection E as <- _. destruct Hc; congruence.
Qed.

Lemma plain_no_naked (sym : ascii) (s : list ascii) :
  Forall plain_char s -> sym = "+"%char \/ sym = "*"%char -> no_naked sym s.
Proof.
  intros H Hsym a b E. destruct (plain_has_no _ _ _ _ H E) as (_ & _ & N1 & N2).
  destruct Hsym; congruence.
Qed.

Lemma plain_literal_parsed
  (PM : (list ascii -> result Op) -> list ascii -> result (option Op))
  (parse : list ascii -> result Op) :
  (forall expr, parse expr = parse_expr_body PM parse expr) ->
  (forall P expr, expr <> [] ->
     (forall interior, expr <> "("%char :: interior ++ [")"%char]) ->
     PM P expr = Return None) ->
  forall s val, Py.float_of_str s = Some val -> Forall plain_char s ->
    parse s = Return (Constant val).
Proof.
  intros Heq Hother s val F Hp.
  rewrite Heq, parse_expr_body_spec.
  rewrite Add_match_no_naked by (apply plain_no_naked; auto).
  rewrite Mul_match_no_naked by (apply plain_no_naked; auto).
  rewrite Hother, F; [reflexivity| |].
  - intros ->. rewrite float_of_str_empty in F. discriminate F.
  - intros i ->. inversion Hp as [|? ? (N & _) _]. congruence.
Qed.

(** C8, as the code has it: the text of a tree with an operator at its
    root starts with [Add(] or [Mul(], and [parse_expr] returns no tree for
    it, whatever [str] prints for a float; the text of a single constant is
    parsed back to that constant when [str] prints a string without operator
    or parenthesis that [float] reads back as the same number. *)
Theorem str_of_operator_tree_not_parsed (float_str : float -> list ascii) :
  (forall l r op,
     parser.parse_expr (Op_str float_str (Add l r)) <> Return op
     /\ parser.parse_expr (Op_str float_str (Mul l r)) <> Return op
     /\ compiler.parse_expr (Op_str float_str (Add l r)) <> Return op
     /\ compiler.parse_expr (Op_str float_str (Mul l r)) <> Return op)
  /\ (forall val,
        Py.float_of_str (float_str val) = Some val ->
        Forall plain_char (float_str val) ->
        parser.parse_expr (Op_str float_str (Constant val)) = Return (Constant val)
        /\ compiler.parse_expr (Op_str float_str (Constant val)) = Return (Constant val)).
Proof.
  split.
  - intros l r op. repeat split.
    + apply (capital_not_parsed parser.Paren_match _ parser_parse_expr_consumes). auto.
    + apply (capital_not_parsed parser.Paren_match _ parser_parse_expr_consumes). auto.
    + apply (capital_not_parsed compiler.Paren_match _ compiler_parse_expr_consumes). auto.
    + apply (capital_not_parsed compiler.Paren_match _ compiler_parse_expr_consumes). auto.
  - intros val F Hp. simpl Op_str. split.
    + apply (plain_literal_parsed parser.Paren_match _ parser_parse_expr_eq); auto.
      intros P expr. apply Paren_match_parser_other.
    + apply (plain_literal_parsed compiler.Paren_match _ compiler_parse_expr_eq); auto.
      intros P expr. apply Paren_match_compiler_other.
Qed.

Lemma str_of_operator_tree_not_parsed_witness :
  parser.parse_expr (Op_str (fun _ => py "2") (Constant 2)) = Return (Constant 2)
  /\ compiler.parse_expr (Op_str (fun _ => py "2") (Constant 2)) = Return (Constant 2).
Proof.
  apply (proj2 (str_of_operator_tree_not_parsed (fun _ => py "2")) 2%float).
  - vm_compute. reflexivity.
  - repeat constructor; discriminate.
Defined.

(** C8 as stated fails: [1+2] is a valid expression, and whatever [str]
    prints for a float, [parse_expr] does not return the tree of [1+2] for
    the text of that tree. *)
Lemma reparse_of_str_fails :
  ~ (exists float_str,
       valid_sum one_plus_two ->
       forall op, compiler.parse_expr (render_sum one_plus_two) = Return op ->
         compiler.parse_expr (Op_str float_str op) = Return op)
  /\ ~ (exists float_str,
          valid_sum one_plus_two ->
          forall op, parser.parse_expr (render_sum one_plus_two) = Return op ->
            parser.parse_expr (Op_str float_str op) = Return op).
Proof.
  assert (V : valid_sum one_plus_two)
    by (simpl; repeat split; left; (split; [repeat constructor|discriminate])).
  split; intros (f & H); specialize (H V (Add (Constant 1) (Constant 2)) eq_refl);
    revert H.
  - apply (capital_not_parsed compiler.Paren_match _ compiler_parse_expr_consumes). auto.
  - apply (capital_not_parsed parser.Paren_match _ parser_parse_expr_consumes). auto.
Qed.

(** ** C9 *)

Lemma build_appends (op : Op) :
  forall block, exists v instrs, build op block = (v, block ++ instrs).
Proof.
  unfold build. induction op as [l IHl r IHr|l IHl r IHr|val]; intros block; simpl.
  - destruct (IHl block) as (lv & il & ->). destruct (IHr (block ++ il)) as (rv & ir & ->).
    unfold emit. eexists. exists (il ++ ir ++ [FAdd lv rv]).
    rewrite <- !app_assoc. reflexivity.
  - destruct (IHl block) as (lv & il & ->). destruct (IHr (block ++ il)) as (rv & ir & ->).
    unfold emit. eexists. exists (il ++ ir ++ [FMul lv rv]).
    rewrite <- !app_assoc. reflexivity.
  - exists (Const val), []. rewrite app_nil_r. reflexivity.
Qed.

(** C9: for any builder, [codegen] of an [Add] node runs [codegen] of the
    left operand, then, on the builder as the left operand left it,
    [codegen] of the right operand, and then [fadd] on the two values; a
    [Mul] node does the same with [fmul]; a [Constant] is [llvm_float_t] of
    its value and leaves the builder as it was.  On a builder that records
    its instructions, the block after an operator node is the block before,
    then the instructions of the left operand, then those of the right
    operand, then the one [FAdd] or [FMul] of the two values. *)
Theorem codegen_left_then_right :
  (forall (Value Builder : Type) (llvm_float_t : float -> Value)
          (fadd fmul : Value -> Value -> Builder -> Value * Builder)
          (l r : Op) (val : float) (irb : Builder),
     let gen := codegen Value Builder llvm_float_t fadd fmul in
     gen (Add l r) irb
     = (let (lval, irb1) := gen l irb in
        let (rval, irb2) := gen r irb1 in fadd lval rval irb2)
     /\ gen (Mul l r) irb
        = (let (lval, irb1) := gen l irb in
           let (rval, irb2) := gen r irb1 in fmul lval rval irb2)
     /\ gen (Constant val) irb = (llvm_float_t val, irb))
  /\ (forall l r block,
        exists lval rval il ir,
          build l block = (lval, block ++ il)
          /\ build r (block ++ il) = (rval, block ++ il ++ ir)
          /\ build (Add l r) block
             = (Reg (length (block ++ il ++ ir)), block ++ il ++ ir ++ [FAdd lval rval])
          /\ build (Mul l r) block
             = (Reg (length (block ++ il ++ ir)), block ++ il ++ ir ++ [FMul lval rval]))
  /\ (forall val block, build (Constant val) block = (Const val, block)).
Proof.
  split; [intros; cbv zeta; repeat split; reflexivity|].
  split; [|reflexivity].
  intros l r block.
  destruct (build_appends l block) as (lv & il & El).
  destruct (build_appends r (block ++ il)) as (rv & ir & Er).
  exists lv, rv, il, ir. rewrite <- app_assoc in Er.
  split; [exact El|]. split; [exact Er|].
  unfold build in *. simpl. rewrite El, Er. unfold emit.
  rewrite <- !app_assoc. split; reflexivity.
Qed.

Example build_sum_of_product :
  build (Add (Constant 1) (Mul (Constant 2) (Constant 3))) []
  = (Reg 1, [FMul (Const 2) (Const 3); FAdd (Const 1) (Reg 0)]).
Proof. reflexivity. Qed.

(** ** C10 *)

(** C10: [Paren.match] indexes its input without checking that it is not
    empty.  On the empty string it raises [IndexError] in both files, and so
    does [parse_expr], on the empty string itself and on inputs such as [1+]
    and [()] whose parts include it; the [ValueError] kept for strings that
    nothing matches is not reached. *)
Theorem empty_string_raises_IndexError :
  let out_of_range := IndexError (py "string index out of range") in
  (forall P, parser.Paren_match P [] = Raise out_of_range)
  /\ (forall P, compiler.Paren_match P [] = Raise out_of_range)
  /\ parser.parse_expr [] = Raise out_of_range
  /\ compiler.parse_expr [] = Raise out_of_range
  /\ parser.parse_expr (py "1+") = Raise out_of_range
  /\ compiler.parse_expr (py "1+") = Raise out_of_range
  /\ parser.parse_expr (py "()") = Raise out_of_range
  /\ compiler.parse_expr (py "()") = Raise out_of_range.
Proof.
  cbv zeta. split; [intros P; apply Paren_match_parser_empty|].
  split; [intros P; apply Paren_match_compiler_empty|].
  repeat split; vm_compute; reflexivity.
Qed.

(** ** Further properties of [compiler.py] and of the recursion *)

(** X1: for every valid expression [parse_expr] of [compiler.py] returns a
    tree, and an evaluator whose addition and multiplication are
    associative gives that tree the standard value of the expression. *)
Theorem compiler_parse_expr_correct
  (V : Type) (constant : float -> V) (add mul : V -> V -> V)
  (add_assoc : forall x y z, add x (add y z) = add (add x y) z)
  (mul_assoc : forall x y z, mul x (mul y z) = mul (mul x y) z)
  (s : sum) (valid : valid_sum s) :
  exists op, compiler.parse_expr (render_sum s) = Return op
    /\ evaluate V constant add mul op = sum_value V constant add mul s.
Proof.
  exact (proj1 (compiler_parse_render V constant add mul add_assoc mul_assoc) s valid).
Qed.

Lemma compiler_parse_expr_correct_witness :
  exists op, compiler.parse_expr (render_sum product_of_sums) = Return op
    /\ evaluate Qc exact_value Qcplus Qcmult op
       = sum_value Qc exact_value Qcplus Qcmult product_of_sums.
Proof.
  apply (compiler_parse_expr_correct Qc exact_value Qcplus Qcmult
           Qcplus_assoc Qcmult_assoc product_of_sums).
  exact valid_product_of_sums.
Defined.

(** With binary64 arithmetic the hypothesis fails and so does the
    conclusion: the tree of [0.1+0.2+0.3] adds [0.2] and [0.3] first. *)
Remark float_evaluation_depends_on_grouping :
  exists op, compiler.parse_expr (render_sum three_tenths) = Return op
    /\ evaluate float (fun x => x) PrimFloat.add PrimFloat.mul op
       <> sum_value float (fun x => x) PrimFloat.add PrimFloat.mul three_tenths.
Proof.
  eexists. split; [vm_compute; reflexivity|].
  intros H.
  apply (f_equal (fun x => PrimFloat.eqb x 0x1.3333333333333p-1%float)) in H.
  vm_compute in H. discriminate H.
Qed.

(** X2: in [compiler.py] the four unused calls of [parse_expr] change nothing:
    [parse_expr] is the [or] chain, which stops at the first match. *)
Theorem compiler_parse_expr_first_match (expr : list ascii) :
  compiler.parse_expr expr
  = first_match compiler.Paren_match compiler.parse_expr expr.
Proof.
  rewrite compiler_parse_expr_eq, parse_expr_body_spec, first_match_spec.
  destruct (Add_match compiler.parse_expr expr) as [[t|]|x] eqn:HA; [| |reflexivity].
  - apply Add_match_some in HA as (a & b & l & r & -> & _ & Hl & Hr & ->).
    apply compiler_parse_expr_well_formed in Hl, Hr.
    destruct (compiler_parses_well_formed _ (wf_add a b Hl Hr))
      as (_ & (m & ->) & (p & ->) & _).
    reflexivity.
  - destruct (Mul_match compiler.parse_expr expr) as [[t|]|x] eqn:HM; [| |reflexivity].
    + apply Mul_match_some in HM as (a & b & l & r & -> & _ & Hl & Hr & ->).
      apply compiler_parse_expr_well_formed in Hl, Hr.
      destruct (compiler_parses_well_formed _ (wf_mul a b Hl Hr))
        as (_ & _ & (p & ->) & _).
      reflexivity.
    + destruct (compiler.Paren_match compiler.parse_expr expr) as [[t|]|x]; reflexivity.
Qed.

(** X3: in [compiler.py] the group matcher parses the interior exactly when the
    two outer parentheses belong together, and returns [None] for every
    other non-empty string. *)
Theorem compiler_Paren_match_partners (P : list ascii -> result Op) (expr : list ascii) :
  expr = []
  \/ (partners expr
      /\ exists interior, expr = "("%char :: interior ++ [")"%char]
           /\ compiler.Paren_match P expr = (op <- P interior ;; Return (Some op)))
  \/ (~ partners expr /\ compiler.Paren_match P expr = Return None).
Proof.
  destruct (compiler_Paren_match_cases P expr) as [E|[(i & E & B & H)|(_ & N & H)]].
  - left. exact E.
  - right. left. split; [exists i; auto|eauto].
  - right. right. auto.
Qed.

(** X4: [parse_expr] is defined on every string, in both files: it
    satisfies the recursive equation of the source, a fuel above the length
    of the input gives its result, and the result is never the exception
    that stands for fuel used up. *)
Theorem parse_expr_total :
  (forall expr,
     parser.parse_expr expr
     = parse_expr_body parser.Paren_match parser.parse_expr expr)
  /\ (forall expr,
        compiler.parse_expr expr
        = parse_expr_body compiler.Paren_match compiler.parse_expr expr)
  /\ (forall fuel expr, (length expr < fuel)%nat ->
        parse_expr_fuel parser.Paren_match fuel expr = parser.parse_expr expr
        /\ parse_expr_fuel compiler.Paren_match fuel expr = compiler.parse_expr expr)
  /\ (forall expr,
        parser.parse_expr expr <> Raise RecursionError
        /\ compiler.parse_expr expr <> Raise RecursionError).
Proof.
  split; [exact parser_parse_expr_eq|]. split; [exact compiler_parse_expr_eq|].
  split.
  - intros fuel expr H. split.
    + apply (parse_expr_fuel_enough _ Paren_match_parser_ext); lia.
    + apply (parse_expr_fuel_enough _ Paren_match_compiler_ext); lia.
  - intros expr. split.
    + apply (parse_expr_no_RecursionError_aux parser.Paren_match parser.parse_expr
               parser_parse_expr_eq) with (n := length expr); [|reflexivity].
      intros s e. apply Paren_match_parser_raise.
    + apply (parse_expr_no_RecursionError_aux compiler.Paren_match compiler.parse_expr
               compiler_parse_expr_eq) with (n := length expr); [|reflexivity].
      intros s e. apply Paren_match_compiler_raise.
Qed.

(** * Further properties *)

(** ** Balance of what is parsed *)

Lemma balanced_literal (s : list ascii) : Forall literal_char s -> balanced s.
Proof.
  intros H. split; [apply depth_literal; exact H|].
  intros n. rewrite depth_literal; [lia|].
  rewrite <- (firstn_skipn n s) in H. apply Forall_app in H. tauto.
Qed.

Lemma balanced_group (s : list ascii) :
  balanced s -> balanced ("("%char :: s ++ [")"%char]).
Proof.
  intros (D & Pre). split.
  - rewrite depth_cons, depth_app, D, bump_open. reflexivity.
  - intros [|n]; [simpl; lia|].
    rewrite firstn_cons, depth_cons, firstn_app, depth_app, bump_open.
    specialize (Pre n).
    destruct (depth_firstn_single (n - length s) ")") as [E|E]; rewrite E;
      [|rewrite bump_close]; lia.
Qed.

Lemma balanced_join (l r : list ascii) (c : ascii) :
  bump c = 0 -> balanced l -> balanced r -> balanced (l ++ c :: r).
Proof.
  intros Hc (Dl & Pl) (Dr & Pr). split.
  - rewrite depth_app, depth_cons, Dl, Dr, Hc. reflexivity.
  - intros n. rewrite firstn_app, depth_app. specialize (Pl n).
    pose proof (depth_firstn_operator (n - length l) c r Hc Pr). lia.
Qed.

Lemma consumes_balanced (op : Op) (s : list ascii) : consumes op s -> balanced s.
Proof.
  induction 1 as [l r sl sr _ IHl _ IHr|l r sl sr _ IHl _ IHr|op s _ IH|s val F].
  - apply balanced_join; auto.
  - apply balanced_join; auto.
  - apply balanced_group; auto.
  - apply balanced_literal. exact (float_of_str_chars _ _ F).
Qed.

(** X5: a string that [parse_expr] returns a tree for, in either file, is
    not empty and has balanced parentheses: on a string with a parenthesis
    that is not closed, or that closes nothing, [parse_expr] raises. *)
Theorem parsed_is_balanced (expr : list ascii) (op : Op) :
  parser.parse_expr expr = Return op \/ compiler.parse_expr expr = Return op ->
  balanced expr /\ expr <> [].
Proof.
  intros H.
  assert (C : consumes op expr).
  { destruct H as [H|H];
      [apply parser_parse_expr_consumes|apply compiler_parse_expr_consumes]; exact H. }
  split; [exact (consumes_balanced _ _ C)|exact (consumes_nonempty _ _ C)].
Qed.

Lemma parsed_is_balanced_witness :
  balanced (py "(1+2)*3") /\ py "(1+2)*3" <> [].
Proof.
  apply (parsed_is_balanced (py "(1+2)*3") (Mul (Add (Constant 1) (Constant 2)) (Constant 3))).
  right. vm_compute. reflexivity.
Defined.

(** ** [parser.py] against [compiler.py] *)

Lemma group_or_not (expr : list ascii) :
  expr = []
  \/ (exists interior, expr = "("%char :: interior ++ [")"%char])
  \/ (expr <> [] /\ forall interior, expr <> "("%char :: interior ++ [")"%char]).
Proof.
  destruct (paren_shape expr) as [E|[G|(c & s & d & E & G0 & G1 & N)]]; auto.
  right. right. split; [intros ->; destruct s; discriminate E|].
  intros i ->. rewrite getitem_first in G0. injection G0 as <-.
  change ("("%char :: i ++ [")"%char]) with (("("%char :: i) ++ [")"%char]) in G1.
  rewrite getitem_last in G1. injection G1 as <-. tauto.
Qed.

Lemma Add_match_unfold (P : list ascii -> result Op) (a b : list ascii) :
  naked_symbol_search (a ++ "+"%char :: b) ["+"%char] = len a ->
  Add_match P (a ++ "+"%char :: b) = (l <- P a ;; r <- P b ;; Return (Some (Add l r))).
Proof.
  intros R. unfold Add_match.
  rewrite R, len_not_minus_one, slice_prefix, slice_suffix. reflexivity.
Qed.

Lemma Mul_match_unfold (P : list ascii -> result Op) (a b : list ascii) :
  naked_symbol_search (a ++ "*"%char :: b) ["*"%char] = len a ->
  Mul_match P (a ++ "*"%char :: b) = (l <- P a ;; r <- P b ;; Return (Some (Mul l r))).
Proof.
  intros R. unfold Mul_match.
  rewrite R, len_not_minus_one, slice_prefix, slice_suffix. reflexivity.
Qed.

(** What a split matcher returns with one parser it returns with any
    parser that returns the same trees on the two sides. *)
Lemma Add_match_transfer (P Q : list ascii -> result Op) (expr : list ascii) (a : option Op) :
  (forall s t, (length s < length expr)%nat -> P s = Return t -> Q s = Return t) ->
  Add_match P expr = Return a -> Add_match Q expr = Return a.
Proof.
  intros T H.
  destruct (Add_match_cases P expr) as [(No & E)|(x & y & -> & _ & R & E)].
  - rewrite E in H. unfold Add_match. rewrite No. exact H.
  - rewrite E in H. apply split_some in H as (l & r & Hl & Hr & ->).
    rewrite (Add_match_unfold Q x y R).
    rewrite (T x l), (T y r); auto; rewrite length_app; simpl; lia.
Qed.

Lemma Mul_match_transfer (P Q : list ascii -> result Op) (expr : list ascii) (a : option Op) :
  (forall s t, (length s < length expr)%nat -> P s = Return t -> Q s = Return t) ->
  Mul_match P expr = Return a -> Mul_match Q expr = Return a.
Proof.
  intros T H.
  destruct (Mul_match_cases P expr) as [(No & E)|(x & y & -> & _ & R & E)].
  - rewrite E in H. unfold Mul_match. rewrite No. exact H.
  - rewrite E in H. apply split_some in H as (l & r & Hl & Hr & ->).
    rewrite (Mul_match_unfold Q x y R).
    rewrite (T x l), (T y r); auto; rewrite length_app; simpl; lia.
Qed.

Lemma parser_refines_compiler_aux (n : nat) :
  forall expr op, length expr = n ->
    parser.parse_expr expr = Return op -> compiler.parse_expr expr = Return op.
Proof.
  induction n as [n IH] using lt_wf_ind. intros expr op Hn H.
  assert (T : forall s t, (length s < length expr)%nat ->
            parser.parse_expr s = Return t -> compiler.parse_expr s = Return t).
  { intros s t L Hs. apply (IH (length s)); auto. lia. }
  rewrite parser_parse_expr_eq, parse_expr_body_spec in H.
  rewrite compiler_parse_expr_eq, parse_expr_body_spec.
  destruct (Add_match parser.parse_expr expr) as [a|] eqn:EA; [|discriminate H].
  destruct (Mul_match parser.parse_expr expr) as [m|] eqn:EM; [|discriminate H].
  destruct (parser.Paren_match parser.parse_expr expr) as [p|] eqn:EP; [|discriminate H].
  rewrite (Add_match_transfer _ _ _ _ T EA), (Mul_match_transfer _ _ _ _ T EM).
  assert (EP' : compiler.Paren_match compiler.parse_expr expr = Return p).
  { unfold parser.Paren_match in EP. unfold compiler.Paren_match.
    destruct (group_or_not expr) as [->|[(i & ->)|(Ne & No)]].
    - discriminate EP.
    - rewrite Paren_match_parser_group in EP.
      apply bind_return_inv in EP as (t & Ht & EP). injection EP as <-.
      rewrite Paren_match_compiler_group.
      pose proof (consumes_balanced _ _ (parser_parse_expr_consumes _ _ Ht)) as B.
      rewrite (proj2 (Z.eqb_eq _ _) (proj2 (paren_loop_balanced _) B)).
      rewrite (T i t); [reflexivity| |exact Ht].
      simpl. rewrite length_app. simpl. lia.
    - rewrite Paren_match_parser_other in EP by assumption.
      rewrite Paren_match_compiler_other by assumption. exact EP. }
  rewrite EP'. exact H.
Qed.

(** X6: whenever [parse_expr] of [parser.py] returns a tree,
    [parse_expr] of [compiler.py] returns the same tree for the same
    string. *)
Theorem parser_refines_compiler (expr : list ascii) (op : Op) :
  parser.parse_expr expr = Return op -> compiler.parse_expr expr = Return op.
Proof. apply (parser_refines_compiler_aux (length expr)). reflexivity. Qed.

Lemma parser_refines_compiler_witness :
  compiler.parse_expr (py "2*(3+4)+1")
  = Return (Add (Mul (Constant 2) (Add (Constant 3) (Constant 4))) (Constant 1)).
Proof.
  apply (parser_refines_compiler (py "2*(3+4)+1")). vm_compute. reflexivity.
Defined.

(** X7: [parse_expr] of [parser.py] raises on every string that starts with
    [(] and ends with [)] around an interior that is not balanced, such as
    a sum or a product whose first and last operands are groups. *)
Theorem parser_raises_on_non_partners (interior : list ascii) :
  ~ balanced interior ->
  exists e, parser.parse_expr ("("%char :: interior ++ [")"%char]) = Raise e.
Proof.
  intros NB. rewrite parser_parse_expr_eq, parse_expr_body_spec.
  destruct (Add_match parser.parse_expr _) as [a|x]; [|eauto].
  destruct (Mul_match parser.parse_expr _) as [m|x]; [|eauto].
  unfold parser.Paren_match. rewrite Paren_match_parser_group.
  destruct (parser.parse_expr interior) as [t|x] eqn:E; simpl; [|eauto].
  exfalso. apply NB.
  exact (consumes_balanced _ _ (parser_parse_expr_consumes _ _ E)).
Qed.

Lemma parser_raises_on_non_partners_witness :
  exists e, parser.parse_expr (py "(1)+(2)") = Raise e.
Proof.
  apply (parser_raises_on_non_partners (py "1)+(2")).
  intros (_ & B). specialize (B 2%nat). vm_compute in B. apply B. reflexivity.
Defined.

Lemma no_open_cut (a b : list ascii) (c : ascii) :
  ~ In "("%char (a ++ c :: b) -> ~ In "("%char a /\ ~ In "("%char b.
Proof.
  intros H. split; intros Hin; apply H; apply in_or_app; [left|right; right]; exact Hin.
Qed.

Lemma parsers_agree_without_parentheses_aux (n : nat) :
  forall expr, length expr = n -> ~ In "("%char expr ->
    parser.parse_expr expr = compiler.parse_expr expr.
Proof.
  induction n as [n IH] using lt_wf_ind. intros expr Hn No.
  rewrite parser_parse_expr_eq, compiler_parse_expr_eq, !parse_expr_body_spec.
  assert (EA : Add_match parser.parse_expr expr = Add_match compiler.parse_expr expr).
  { destruct (Add_match_cases parser.parse_expr expr) as [(R & E)|(a & b & -> & _ & R & E)].
    - rewrite E. unfold Add_match. rewrite R. reflexivity.
    - rewrite E, (Add_match_unfold _ a b R).
      destruct (no_open_cut _ _ _ No) as (Na & Nb).
      rewrite length_app in Hn. simpl in Hn.
      rewrite (IH (length a) ltac:(lia) a eq_refl Na),
        (IH (length b) ltac:(lia) b eq_refl Nb). reflexivity. }
  assert (EM : Mul_match parser.parse_expr expr = Mul_match compiler.parse_expr expr).
  { destruct (Mul_match_cases parser.parse_expr expr) as [(R & E)|(a & b & -> & _ & R & E)].
    - rewrite E. unfold Mul_match. rewrite R. reflexivity.
    - rewrite E, (Mul_match_unfold _ a b R).
      destruct (no_open_cut _ _ _ No) as (Na & Nb).
      rewrite length_app in Hn. simpl in Hn.
      rewrite (IH (length a) ltac:(lia) a eq_refl Na),
        (IH (length b) ltac:(lia) b eq_refl Nb). reflexivity. }
  assert (EP : parser.Paren_match parser.parse_expr expr
               = compiler.Paren_match compiler.parse_expr expr).
  { unfold parser.Paren_match, compiler.Paren_match.
    destruct (group_or_not expr) as [->|[(i & ->)|(Ne & Ng)]].
    - reflexivity.
    - exfalso. apply No. left. reflexivity.
    - rewrite Paren_match_parser_other, Paren_match_compiler_other by assumption.
      reflexivity. }
  rewrite EA, EM, EP. reflexivity.
Qed.

(** X8: on a string without [(] the two files do the same: [parse_expr]
    returns the same tree or raises the same exception. *)
Theorem parsers_agree_without_parentheses (expr : list ascii) :
  ~ In "("%char expr -> parser.parse_expr expr = compiler.parse_expr expr.
Proof. apply (parsers_agree_without_parentheses_aux (length expr)). reflexivity. Qed.

Lemma parsers_agree_without_parentheses_witness :
  parser.parse_expr (py "1+2*") = compiler.parse_expr (py "1+2*").
Proof.
  apply (parsers_agree_without_parentheses (py "1+2*")).
  simpl. intros H. repeat (destruct H as [H|H]; [discriminate H|]). exact H.
Defined.

(** ** The shape of the tree *)

Lemma compiler_parse_render_tree :
  (forall s, valid_sum s ->
     compiler.parse_expr (render_sum s) = Return (tree_of_sum s))
  /\ (forall p, valid_product p ->
        compiler.parse_expr (render_product p) = Return (tree_of_product p))
  /\ (forall a, valid_atom a ->
        compiler.parse_expr (render_atom a) = Return (tree_of_atom a)).
Proof.
  destruct render_well_formed as (Ws & Wp & Wa).
  apply syntax_ind.
  - intros p IH Vp. exact (IH Vp).
  - intros p IHp rest IHrest (Vp & Vr).
    assert (W : well_formed (render_sum (SumCons p rest)))
      by (apply Ws; split; assumption).
    destruct (compiler_parses_well_formed _ W) as (_ & (m & HM) & (q & HP) & _).
    rewrite compiler_parse_expr_eq, parse_expr_body_spec, HM, HP.
    simpl render_sum.
    rewrite Add_match_at, (IHp Vp), (IHrest Vr);
      [reflexivity|apply well_formed_depth, Wp, Vp|apply product_no_naked_plus, Vp].
  - intros a IH Va. exact (IH Va).
  - intros a IHa rest IHrest (Va & Vr).
    assert (W : well_formed (render_product (ProductCons a rest)))
      by (apply Wp; split; assumption).
    destruct (compiler_parses_well_formed _ W) as (_ & _ & (q & HP) & _).
    rewrite compiler_parse_expr_eq, parse_expr_body_spec, HP.
    rewrite Add_match_no_naked
      by (apply (product_no_naked_plus (ProductCons a rest)); split; assumption).
    simpl render_product.
    rewrite Mul_match_at, (IHa Va), (IHrest Vr);
      [reflexivity|apply well_formed_depth, Wa, Va
      |apply atom_no_naked; [exact Va|right; reflexivity]].
  - intros text H. simpl.
    apply (plain_literal_parsed compiler.Paren_match _ compiler_parse_expr_eq).
    + intros P expr. apply Paren_match_compiler_other.
    + apply numeral_value_spec. exact H.
    + apply numeral_plain. exact H.
  - intros s IH Vs.
    pose proof (well_formed_balanced _ (Ws s Vs)) as B.
    rewrite compiler_parse_expr_eq, parse_expr_body_spec.
    rewrite Add_match_no_naked
      by (apply (atom_no_naked (Group s)); [exact Vs|left; reflexivity]).
    rewrite Mul_match_no_naked
      by (apply (atom_no_naked (Group s)); [exact Vs|right; reflexivity]).
    simpl render_atom. unfold compiler.Paren_match.
    rewrite Paren_match_compiler_group.
    rewrite (proj2 (Z.eqb_eq _ _) (proj2 (paren_loop_balanced _) B)), (IH Vs).
    reflexivity.
Qed.

(** X9: for a valid expression [parse_expr] of [compiler.py] returns the
    tree in which sums stand above products, the operands of a sum and of a
    product are nested to the right, and a group leaves no node of its own;
    [parse_expr] of [parser.py] returns the same tree when the expression
    has no parenthesis. *)
Theorem compiler_parse_expr_tree :
  (forall s, valid_sum s ->
     compiler.parse_expr (render_sum s) = Return (tree_of_sum s))
  /\ (forall s, valid_sum s -> ~ In "("%char (render_sum s) ->
        parser.parse_expr (render_sum s) = Return (tree_of_sum s)).
Proof.
  split; [exact (proj1 compiler_parse_render_tree)|].
  intros s V No.
  rewrite (parsers_agree_without_parentheses_aux _ _ eq_refl No).
  exact (proj1 compiler_parse_render_tree s V).
Qed.

Lemma compiler_parse_expr_tree_witness :
  compiler.parse_expr (render_sum three_tenths) = Return (tree_of_sum three_tenths)
  /\ parser.parse_expr (render_sum three_tenths) = Return (tree_of_sum three_tenths).
Proof.
  assert (V : valid_sum three_tenths).
  { simpl. repeat split; right; [exists (py "0"), (py "1")|exists (py "0"), (py "2")
                                |exists (py "0"), (py "3")];
      repeat split; try (repeat constructor); discriminate. }
  split.
  - apply (proj1 compiler_parse_expr_tree). exact V.
  - apply (proj2 compiler_parse_expr_tree); [exact V|].
    simpl. intros H. repeat (destruct H as [H|H]; [discriminate H|]). exact H.
Defined.

Section Root.

Variable Paren_match : (list ascii -> result Op) -> list ascii -> result (option Op).
Variable parse_expr : list ascii -> result Op.

Hypothesis parse_expr_eq :
  forall expr, parse_expr expr = parse_expr_body Paren_match parse_expr expr.

Hypothesis Paren_match_some :
  forall P expr op, Paren_match P expr = Return (Some op) ->
    exists interior, expr = "("%char :: interior ++ [")"%char] /\ P interior = Return op.

Lemma parse_expr_root_rule : root_rule parse_expr.
Proof.
  intros expr op H. cbv zeta.
  rewrite parse_expr_eq, parse_expr_body_spec in H.
  destruct (Add_match parse_expr expr) as [a|] eqn:EA; [|discriminate H].
  destruct (Mul_match parse_expr expr) as [m|] eqn:EM; [|discriminate H].
  destruct (Paren_match parse_expr expr) as [p|] eqn:EP; [|discriminate H].
  unfold Add_match in EA. unfold Mul_match in EM.
  split; [|split].
  - intros Np.
    destruct (Z.eqb_spec (naked_symbol_search expr ["+"%char]) (-1)) as [?|_];
      [contradiction|]. simpl negb in EA. cbv iota zeta in EA.
    apply split_some in EA as (l & r & Hl & Hr & ->).
    injection H as <-. eauto.
  - intros Ep Nt. rewrite Ep in EA. simpl in EA. injection EA as <-.
    destruct (Z.eqb_spec (naked_symbol_search expr ["*"%char]) (-1)) as [?|_];
      [contradiction|]. simpl negb in EM. cbv iota zeta in EM.
    apply split_some in EM as (l & r & Hl & Hr & ->).
    injection H as <-. eauto.
  - intros Ep Et. rewrite Ep in EA. simpl in EA. injection EA as <-.
    rewrite Et in EM. simpl in EM. injection EM as <-.
    destruct p as [t|].
    + injection H as <-. left. apply Paren_match_some in EP. exact EP.
    + destruct (Py.float_of_str expr) as [val|]; [|discriminate H].
      injection H as <-. right. eauto.
Qed.

End Root.

(** X10: in both files the root of a returned tree is decided by the
    operators outside parentheses.  If there is a [+], the root is [Add] of
    the trees of what stands before and after the first one; if there is
    none but there is a [*], the root is [Mul] of the trees of what stands
    before and after the first one; if there is neither, the tree is that of
    the interior of a group or a single constant. *)
Theorem root_follows_first_operator :
  root_rule parser.parse_expr /\ root_rule compiler.parse_expr.
Proof.
  split.
  - apply (parse_expr_root_rule parser.Paren_match _ parser_parse_expr_eq).
    apply Paren_match_parser_some.
  - apply (parse_expr_root_rule compiler.Paren_match _ compiler_parse_expr_eq).
    intros P e t H. apply Paren_match_compiler_some in H as (i & E & _ & Hi). eauto.
Qed.

Lemma root_follows_first_operator_witness :
  exists l r, Add (Mul (Constant 2) (Constant 3)) (Constant 4) = Add l r
    /\ compiler.parse_expr (slice (py "2*3+4") None (Some 3)) = Return l
    /\ compiler.parse_expr (slice (py "2*3+4") (Some (3 + 1)) None) = Return r.
Proof.
  apply (proj1 (proj2 root_follows_first_operator (py "2*3+4")
                  (Add (Mul (Constant 2) (Constant 3)) (Constant 4)) eq_refl)).
  vm_compute. discriminate.
Defined.

(** ** Strings without operators and parentheses *)

Lemma plain_string_parse
  (PM : (list ascii -> result Op) -> list ascii -> result (option Op))
  (parse : list ascii -> result Op) :
  (forall expr, parse expr = parse_expr_body PM parse expr) ->
  (forall P expr, expr <> [] ->
     (forall interior, expr <> "("%char :: interior ++ [")"%char]) ->
     PM P expr = Return None) ->
  forall expr, expr <> [] -> Forall plain_char expr ->
    parse expr = match Py.float_of_str expr with
                 | Some val => Return (Constant val)
                 | None => Raise (ValueError (could_not_parse expr))
                 end.
Proof.
  intros Heq Hother expr Ne Hp.
  rewrite Heq, parse_expr_body_spec.
  rewrite Add_match_no_naked by (apply plain_no_naked; auto).
  rewrite Mul_match_no_naked by (apply plain_no_naked; auto).
  rewrite Hother; [reflexivity|exact Ne|].
  intros i ->. inversion Hp as [|? ? (N & _) _]. congruence.
Qed.

(** X11: a non-empty string without [+], [*] and parentheses is one
    literal or nothing: in both files [parse_expr] returns the constant that
    [float] reads from the whole string, or raises [ValueError] naming the
    whole string when [float] rejects it.  So a leading [-] belongs to the
    literal, and there is no subtraction or division. *)
Theorem plain_string_is_literal_or_error (expr : list ascii) :
  expr <> [] -> Forall plain_char expr ->
  let outcome :=
    match Py.float_of_str expr with
    | Some val => Return (Constant val)
    | None => Raise (ValueError (could_not_parse expr))
    end in
  parser.parse_expr expr = outcome /\ compiler.parse_expr expr = outcome.
Proof.
  intros Ne Hp. cbv zeta. split.
  - apply (plain_string_parse parser.Paren_match _ parser_parse_expr_eq); auto.
    intros P e. apply Paren_match_parser_other.
  - apply (plain_string_parse compiler.Paren_match _ compiler_parse_expr_eq); auto.
    intros P e. apply Paren_match_compiler_other.
Qed.

Lemma plain_string_is_literal_or_error_witness :
  (parser.parse_expr (py "-1.5e3") = Return (Constant (-1500))
   /\ compiler.parse_expr (py "-1.5e3") = Return (Constant (-1500)))
  /\ (parser.parse_expr (py "7-2") = Raise (ValueError (could_not_parse (py "7-2")))
      /\ compiler.parse_expr (py "7-2") = Raise (ValueError (could_not_parse (py "7-2")))).
Proof.
  split.
  - apply (plain_string_is_literal_or_error (py "-1.5e3")); [discriminate|].
    repeat constructor; discriminate.
  - apply (plain_string_is_literal_or_error (py "7-2")); [discriminate|].
    repeat constructor; discriminate.
Defined.

(** ** Operators and nodes *)

Lemma occurrences_app (c : ascii) (a b : list ascii) :
  occurrences c (a ++ b) = (occurrences c a + occurrences c b)%nat.
Proof. apply count_occ_app. Qed.

Lemma occurrences_same (c : ascii) (s : list ascii) :
  occurrences c (c :: s) = S (occurrences c s).
Proof. apply count_occ_cons_eq. reflexivity. Qed.

Lemma occurrences_other (c d : ascii) (s : list ascii) :
  d <> c -> occurrences c (d :: s) = occurrences c s.
Proof. apply count_occ_cons_neq. Qed.

Lemma occurrences_none (c : ascii) (s : list ascii) :
  ~ In c s -> occurrences c s = 0%nat.
Proof. apply count_occ_not_In. Qed.

Lemma occurrences_nil (c : ascii) : occurrences c [] = 0%nat.
Proof. reflexivity. Qed.

Lemma constants_nodes (op : Op) : constants op = S (adds op + muls op).
Proof. induction op; simpl; lia. Qed.

Section Counts.

Variable Paren_match : (list ascii -> result Op) -> list ascii -> result (option Op).
Variable parse_expr : list ascii -> result Op.

Hypothesis parse_expr_eq :
  forall expr, parse_expr expr = parse_expr_body Paren_match parse_expr expr.

Hypothesis Paren_match_some :
  forall P expr op, Paren_match P expr = Return (Some op) ->
    exists interior, expr = "("%char :: interior ++ [")"%char] /\ P interior = Return op.

Lemma parse_expr_counts (n : nat) :
  forall expr op, (length expr < n)%nat -> parse_expr expr = Return op ->
    adds op = occurrences "+" expr /\ muls op = occurrences "*" expr.
Proof.
  induction n as [|n IH]; intros expr op Hn H; [lia|].
  destruct (parse_expr_return_cases _ _ parse_expr_eq _ _ H)
    as [HA|[(HA & HM)|[(HA & HM & HP)|(HA & HM & HP & val & HF & ->)]]].
  - apply Add_match_some in HA as (a & b & l & r & -> & _ & Hl & Hr & ->).
    rewrite length_app in Hn. simpl in Hn.
    destruct (IH a l ltac:(lia) Hl) as (Al & Ml).
    destruct (IH b r ltac:(lia) Hr) as (Ar & Mr).
    rewrite !occurrences_app, occurrences_same, occurrences_other by discriminate.
    simpl. lia.
  - apply Mul_match_some in HM as (a & b & l & r & -> & _ & Hl & Hr & ->).
    rewrite length_app in Hn. simpl in Hn.
    destruct (IH a l ltac:(lia) Hl) as (Al & Ml).
    destruct (IH b r ltac:(lia) Hr) as (Ar & Mr).
    rewrite !occurrences_app, occurrences_same, occurrences_other by discriminate.
    simpl. lia.
  - apply Paren_match_some in HP as (i & -> & Hi).
    simpl in Hn. rewrite length_app in Hn. simpl in Hn.
    destruct (IH i op ltac:(lia) Hi) as (Ai & Mi).
    rewrite !occurrences_other, !occurrences_app, !occurrences_other,
      !occurrences_nil by discriminate.
    lia.
  - pose proof (float_of_str_chars _ _ HF) as Hc.
    simpl. split; symmetry; apply occurrences_none.
    + apply (Add_match_none_no_plus _ _ HA Hc).
    + intros Hin. rewrite Forall_forall in Hc.
      destruct (Hc _ Hin) as (_ & _ & N). congruence.
Qed.

End Counts.

(** X12: in both files every [+] of a parsed string is an [Add] node of the
    returned tree and every [*] a [Mul] node, and the tree has one constant
    more than it has operator nodes.  So no [+] is ever read as the sign of a
    literal or of an exponent. *)
Theorem operators_become_nodes (expr : list ascii) (op : Op) :
  parser.parse_expr expr = Return op \/ compiler.parse_expr expr = Return op ->
  adds op = occurrences "+" expr
  /\ muls op = occurrences "*" expr
  /\ constants op = S (occurrences "+" expr + occurrences "*" expr).
Proof.
  intros H.
  assert (K : adds op = occurrences "+" expr /\ muls op = occurrences "*" expr).
  { destruct H as [H|H].
    - apply (parse_expr_counts parser.Paren_match _ parser_parse_expr_eq
               Paren_match_parser_some (S (length expr)) expr op); [lia|exact H].
    - apply (parse_expr_counts compiler.Paren_match _ compiler_parse_expr_eq)
        with (n := S (length expr)); [|lia|exact H].
      intros P e t Ht. apply Paren_match_compiler_some in Ht as (i & E & _ & Hi). eauto. }
  destruct K as (KA & KM). rewrite constants_nodes, KA, KM. auto.
Qed.

Lemma operators_become_nodes_witness :
  adds (Add (Constant 1) (Mul (Constant 2) (Constant 3))) = occurrences "+" (py "1+(2*3)")
  /\ muls (Add (Constant 1) (Mul (Constant 2) (Constant 3))) = occurrences "*" (py "1+(2*3)")
  /\ constants (Add (Constant 1) (Mul (Constant 2) (Constant 3)))
     = S (occurrences "+" (py "1+(2*3)") + occurrences "*" (py "1+(2*3)")).
Proof.
  apply (operators_become_nodes (py "1+(2*3)")). left. vm_compute. reflexivity.
Defined.

(** ** What an exception names *)








Section Errors.

Variable Paren_match : (list ascii -> result Op) -> list ascii -> result (option Op).
Variable parse_expr : list ascii -> result Op.

Hypothesis parse_expr_eq :
  forall expr, parse_expr expr = parse_expr_body Paren_match parse_expr expr.

Hypothesis Paren_match_raise_group :
  forall P expr e, Paren_match P expr = Raise e ->
    e = IndexError (py "string index out of range")
    \/ exists interior, expr = "("%char :: interior ++ [")"%char] /\ P interior = Raise e.

Hypothesis Paren_match_empty :
  forall P, Paren_match P [] = Raise (IndexError (py "string index out of range")).


End Errors.



(** ** An operator without a left operand *)

Section Leading.

Variable Paren_match : (list ascii -> result Op) -> list ascii -> result (option Op).
Variable parse_expr : list ascii -> result Op.

Hypothesis parse_expr_eq :
  forall expr, parse_expr expr = parse_expr_body Paren_match parse_expr expr.

Hypothesis Paren_match_empty :
  forall P, Paren_match P [] = Raise (IndexError (py "string index out of range")).

Lemma parse_expr_empty :
  parse_expr [] = Raise (IndexError (py "string index out of range")).
Proof.
  rewrite parse_expr_eq, parse_expr_body_spec.
  destruct (Add_match_cases parse_expr []) as [(_ & ->)|(a & b & E & _)];
    [|destruct a; discriminate E].
  destruct (Mul_match_cases parse_expr []) as [(_ & ->)|(a & b & E & _)];
    [|destruct a; discriminate E].
  rewrite Paren_match_empty. reflexivity.
Qed.

Lemma leading_operator_raises (n : nat) :
  forall c rest, (length rest < n)%nat -> c = "+"%char \/ c = "*"%char ->
    parse_expr (c :: rest) = Raise (IndexError (py "string index out of range")).
Proof.
  induction n as [|n IH]; intros c rest Hn Hc; [lia|].
  rewrite parse_expr_eq, parse_expr_body_spec.
  destruct (Add_match_cases parse_expr (c :: rest))
    as [(NA & ->)|(a & b & E & _ & _ & ->)].
  - destruct Hc as [-> | ->].
    + exfalso. revert NA.
      apply (naked_symbol_search_some ["+"%char] [] rest "+"%char);
        [left; reflexivity|discriminate|discriminate|reflexivity].
    + destruct (Mul_match_cases parse_expr ("*"%char :: rest))
        as [(NM & _)|(a & b & E & _ & _ & ->)].
      * exfalso. revert NM.
        apply (naked_symbol_search_some ["*"%char] [] rest "*"%char);
          [left; reflexivity|discriminate|discriminate|reflexivity].
      * destruct a as [|x a].
        -- rewrite parse_expr_empty. reflexivity.
        -- injection E as <- E. subst rest.
           rewrite length_app in Hn. simpl in Hn.
           rewrite (IH "*"%char a ltac:(lia) (or_intror eq_refl)). reflexivity.
  - destruct a as [|x a].
    + rewrite parse_expr_empty. reflexivity.
    + injection E as <- E. subst rest.
      rewrite length_app in Hn. simpl in Hn.
      rewrite (IH c a ltac:(lia) Hc). reflexivity.
Qed.

End Leading.

(** X14: in both files a string that begins with [+] or [*] is not parsed:
    [parse_expr] raises [IndexError] with the text [string index out of
    range], whatever follows.  The operator has an empty left operand, and
    [Paren.match] indexes the empty string before anything else is tried;
    so [+1] is not a literal although [float] reads it. *)
Theorem leading_operator_raises_IndexError (c : ascii) (rest : list ascii) :
  c = "+"%char \/ c = "*"%char ->
  parser.parse_expr (c :: rest) = Raise (IndexError (py "string index out of range"))
  /\ compiler.parse_expr (c :: rest) = Raise (IndexError (py "string index out of range")).
Proof.
  intros Hc. split.
  - apply (leading_operator_raises parser.Paren_match _ parser_parse_expr_eq
             Paren_match_parser_empty (S (length rest))); [lia|exact Hc].
  - apply (leading_operator_raises compiler.Paren_match _ compiler_parse_expr_eq
             Paren_match_compiler_empty (S (length rest))); [lia|exact Hc].
Qed.

Lemma leading_operator_raises_IndexError_witness :
  Py.float_of_str (py "+1") = Some 1%float
  /\ parser.parse_expr (py "+1") = Raise (IndexError (py "string index out of range"))
  /\ compiler.parse_expr (py "+1") = Raise (IndexError (py "string index out of range")).
Proof.
  split; [vm_compute; reflexivity|].
  apply (leading_operator_raises_IndexError "+"%char (py "1")). left. reflexivity.
Defined.

(** ** The block that [codegen] builds *)

Lemma build_Add (l r : Op) (block : list instr) :
  build (Add l r) block
  = let (lval, block1) := build l block in
    let (rval, block2) := build r block1 in
    emit (FAdd lval rval) block2.
Proof. reflexivity. Qed.

Lemma build_Mul (l r : Op) (block : list instr) :
  build (Mul l r) block
  = let (lval, block1) := build l block in
    let (rval, block2) := build r block1 in
    emit (FMul lval rval) block2.
Proof. reflexivity. Qed.

Lemma defined_before_mono (n m : nat) (v : value) :
  (n <= m)%nat -> defined_before n v -> defined_before m v.
Proof. destruct v; simpl; [trivial|lia]. Qed.

Lemma well_numbered_snoc (block : list instr) (i : instr) :
  well_numbered block -> Forall (defined_before (length block)) (operands i) ->
  well_numbered (block ++ [i]).
Proof.
  intros W Hi n j Hn.
  destruct (Nat.lt_ge_cases n (length block)) as [L|L].
  - rewrite nth_error_app1 in Hn by exact L. exact (W n j Hn).
  - rewrite nth_error_app2 in Hn by exact L.
    destruct (n - length block)%nat as [|k] eqn:E.
    + simpl in Hn. injection Hn as <-.
      replace n with (length block) by lia. exact Hi.
    + destruct k; discriminate Hn.
Qed.

Lemma build_shape (op : Op) :
  forall block, well_numbered block ->
    exists v instrs, build op block = (v, block ++ instrs)
      /\ length instrs = (adds op + muls op)%nat
      /\ well_numbered (block ++ instrs)
      /\ defined_before (length (block ++ instrs)) v
      /\ match op with
         | Constant val => v = Const val
         | _ => v = Reg (length (block ++ instrs) - 1)
         end.
Proof.
  induction op as [l IHl r IHr|l IHl r IHr|val]; intros block W.
  - destruct (IHl block W) as (lv & il & El & Ll & Wl & Dl & _).
    destruct (IHr (block ++ il) Wl) as (rv & ir & Er & Lr & Wr & Dr & _).
    rewrite build_Add, El, Er. unfold emit.
    exists (Reg (length ((block ++ il) ++ ir))), (il ++ ir ++ [FAdd lv rv]).
    assert (E : block ++ il ++ ir ++ [FAdd lv rv] = ((block ++ il) ++ ir) ++ [FAdd lv rv])
      by (rewrite <- !app_assoc; reflexivity).
    rewrite E. repeat split.
    + rewrite !length_app. simpl. lia.
    + apply well_numbered_snoc; [exact Wr|]. simpl.
      repeat constructor; [|exact Dr].
      apply (defined_before_mono (length (block ++ il))); [|exact Dl].
      rewrite (length_app (block ++ il)). lia.
    + simpl. rewrite (length_app _ [FAdd lv rv]). simpl. lia.
    + simpl. rewrite (length_app _ [FAdd lv rv]). simpl. f_equal. lia.
  - destruct (IHl block W) as (lv & il & El & Ll & Wl & Dl & _).
    destruct (IHr (block ++ il) Wl) as (rv & ir & Er & Lr & Wr & Dr & _).
    rewrite build_Mul, El, Er. unfold emit.
    exists (Reg (length ((block ++ il) ++ ir))), (il ++ ir ++ [FMul lv rv]).
    assert (E : block ++ il ++ ir ++ [FMul lv rv] = ((block ++ il) ++ ir) ++ [FMul lv rv])
      by (rewrite <- !app_assoc; reflexivity).
    rewrite E. repeat split.
    + rewrite !length_app. simpl. lia.
    + apply well_numbered_snoc; [exact Wr|]. simpl.
      repeat constructor; [|exact Dr].
      apply (defined_before_mono (length (block ++ il))); [|exact Dl].
      rewrite (length_app (block ++ il)). lia.
    + simpl. rewrite (length_app _ [FMul lv rv]). simpl. lia.
    + simpl. rewrite (length_app _ [FMul lv rv]). simpl. f_equal. lia.
  - exists (Const val), []. rewrite app_nil_r. repeat split. exact W.
Qed.

(** X15: on the recording builder, [codegen] of a tree appends to the block
    exactly one instruction for each [Add] and each [Mul] node and none for
    a constant, leaves what the block held in place, and keeps the block in
    order of definition: every instruction uses only constants and results
    of instructions before it.  The value it returns is the constant itself
    for a [Constant] and the result of the last instruction of the block for
    an operator node. *)
Theorem codegen_block_shape (op : Op) (block : list instr) :
  well_numbered block ->
  exists v instrs, build op block = (v, block ++ instrs)
    /\ length instrs = (adds op + muls op)%nat
    /\ well_numbered (block ++ instrs)
    /\ defined_before (length (block ++ instrs)) v
    /\ match op with
       | Constant val => v = Const val
       | _ => v = Reg (length (block ++ instrs) - 1)
       end.
Proof. apply build_shape. Qed.

Lemma codegen_block_shape_witness :
  well_numbered []
  /\ exists v instrs,
       build (Add (Constant 1) (Mul (Constant 2) (Constant 3))) [] = (v, [] ++ instrs)
       /\ length instrs = 2%nat
       /\ well_numbered ([] ++ instrs)
       /\ defined_before (length ([] ++ instrs)) v
       /\ v = Reg (length ([] ++ instrs) - 1).
Proof.
  assert (W : well_numbered []) by (intros [|n] i H; discriminate H).
  split; [exact W|].
  exact (codegen_block_shape (Add (Constant 1) (Mul (Constant 2) (Constant 3))) [] W).
Defined.

Section RunBlock.

Variable V : Type.
Variable constant : float -> V.
Variable add mul : V -> V -> V.

Lemma run_app (a b : list instr) :
  forall regs,
    run V constant add mul regs (a ++ b)
    = match run V constant add mul regs a with
      | Some regs' => run V constant add mul regs' b
      | None => None
      end.
Proof.
  induction a as [|i a IH]; intros regs; simpl; [reflexivity|].
  destruct (exec V constant add mul regs i); [apply IH|reflexivity].
Qed.

Lemma value_of_app (regs more : list V) (v : value) (x : V) :
  value_of V constant regs v = Some x -> value_of V constant (regs ++ more) v = Some x.
Proof.
  destruct v as [val|n]; simpl; [trivial|]. intros H.
  rewrite nth_error_app1; [exact H|]. apply nth_error_Some. congruence.
Qed.

Lemma value_of_last (regs : list V) (x : V) (n : nat) :
  n = length regs -> value_of V constant (regs ++ [x]) (Reg n) = Some x.
Proof.
  intros ->. simpl. rewrite nth_error_app2 by lia. rewrite Nat.sub_diag. reflexivity.
Qed.

Lemma run_build (op : Op) :
  forall block regs, length regs = length block ->
    exists v instrs more,
      build op block = (v, block ++ instrs)
      /\ run V constant add mul regs instrs = Some (regs ++ more)
      /\ length more = length instrs
      /\ value_of V constant (regs ++ more) v = Some (evaluate V constant add mul op).
Proof.
  induction op as [l IHl r IHr|l IHl r IHr|val]; intros block regs L.
  - destruct (IHl block regs L) as (lv & il & ml & El & Rl & Ll & Vl).
    destruct (IHr (block ++ il) (regs ++ ml)) as (rv & ir & mr & Er & Rr & Lr & Vr).
    { rewrite !length_app. lia. }
    rewrite build_Add, El, Er. unfold emit.
    exists (Reg (length ((block ++ il) ++ ir))), (il ++ ir ++ [FAdd lv rv]),
      (ml ++ mr ++ [add (evaluate V constant add mul l) (evaluate V constant add mul r)]).
    repeat split.
    + rewrite <- !app_assoc. reflexivity.
    + rewrite run_app, Rl, run_app, Rr. simpl.
      rewrite (value_of_app _ mr _ _ Vl), Vr. rewrite <- !app_assoc. reflexivity.
    + rewrite !length_app. simpl. lia.
    + rewrite evaluate_Add.
      replace (regs ++ ml ++ mr ++ [add (evaluate V constant add mul l)
                                      (evaluate V constant add mul r)])
        with (((regs ++ ml) ++ mr) ++ [add (evaluate V constant add mul l)
                                         (evaluate V constant add mul r)])
        by (rewrite <- !app_assoc; reflexivity).
      apply value_of_last. rewrite !length_app. lia.
  - destruct (IHl block regs L) as (lv & il & ml & El & Rl & Ll & Vl).
    destruct (IHr (block ++ il) (regs ++ ml)) as (rv & ir & mr & Er & Rr & Lr & Vr).
    { rewrite !length_app. lia. }
    rewrite build_Mul, El, Er. unfold emit.
    exists (Reg (length ((block ++ il) ++ ir))), (il ++ ir ++ [FMul lv rv]),
      (ml ++ mr ++ [mul (evaluate V constant add mul l) (evaluate V constant add mul r)]).
    repeat split.
    + rewrite <- !app_assoc. reflexivity.
    + rewrite run_app, Rl, run_app, Rr. simpl.
      rewrite (value_of_app _ mr _ _ Vl), Vr. rewrite <- !app_assoc. reflexivity.
    + rewrite !length_app. simpl. lia.
    + rewrite evaluate_Mul.
      replace (regs ++ ml ++ mr ++ [mul (evaluate V constant add mul l)
                                      (evaluate V constant add mul r)])
        with (((regs ++ ml) ++ mr) ++ [mul (evaluate V constant add mul l)
                                         (evaluate V constant add mul r)])
        by (rewrite <- !app_assoc; reflexivity).
      apply value_of_last. rewrite !length_app. lia.
  - exists (Const val), [], []. rewrite !app_nil_r. repeat split.
Qed.

End RunBlock.



(** ** The strings [compiler.py] accepts *)

(** X17: [parse_expr] of [compiler.py] returns a tree exactly for the
    strings built from literals that [float] reads and that hold no
    operator or parenthesis, joined by [+] and [*] and put in parentheses;
    on every other string it raises. *)
Theorem compiler_accepts_exactly_well_formed (expr : list ascii) :
  ((exists op, compiler.parse_expr expr = Return op) <-> well_formed expr)
  /\ ((exists e, compiler.parse_expr expr = Raise e) <-> ~ well_formed expr).
Proof.
  split; split.
  - intros (op & H). exact (compiler_parse_expr_well_formed _ _ H).
  - intros W. exact (proj2 (proj2 (proj2 (compiler_parses_well_formed _ W)))).
  - intros (e & H) W.
    destruct (proj2 (proj2 (proj2 (compiler_parses_well_formed _ W)))) as (op & Hop).
    congruence.
  - intros N. destruct (compiler.parse_expr expr) as [op|e] eqn:E.
    + destruct N. exact (compiler_parse_expr_well_formed _ _ E).
    + exists e. reflexivity.
Qed.

(** ** [main] *)

Lemma cleanup_input_app (a b : list ascii) :
  cleanup_input (a ++ b) = cleanup_input a ++ cleanup_input b.
Proof. apply filter_app. Qed.

Lemma cleanup_input_spaces (ws : list ascii) :
  Forall (fun c => Py.re_space c = true) ws -> cleanup_input ws = [].
Proof.
  induction 1 as [|c ws Hc _ IH]; [reflexivity|].
  unfold cleanup_input in *. simpl. rewrite Hc. exact IH.
Qed.

(** X18: for an input that, with its whitespace removed, is a valid
    expression, [main] of [compiler.py] gets through parsing and code
    generation, and the block it has built computes the expression: run from
    the empty block, the returned value stands for [add] and [mul] applied
    as the tree nests them, the operands of a sum and of a product taken
    from the right; when [add] and [mul] are associative this is the
    standard value of the expression. *)
Theorem main_compiles_valid_expression
  (V : Type) (constant : float -> V) (add mul : V -> V -> V)
  (inp : list ascii) (s : sum) :
  valid_sum s -> cleanup_input inp = render_sum s ->
  exists block ret regs,
    main inp = Return (block, ret)
    /\ run V constant add mul [] block = Some regs
    /\ value_of V constant regs ret
       = Some (evaluate V constant add mul (tree_of_sum s))
    /\ ((forall x y z, add x (add y z) = add (add x y) z) ->
        (forall x y z, mul x (mul y z) = mul (mul x y) z) ->
        value_of V constant regs ret = Some (sum_value V constant add mul s)).
Proof.
  intros Hs Hc.
  pose proof (proj1 compiler_parse_render_tree s Hs) as HT.
  destruct (run_build V constant add mul (tree_of_sum s) [] [] eq_refl)
    as (v & instrs & more & E & R & _ & Val).
  change ([] ++ instrs) with instrs in E. change ([] ++ more) with more in R, Val.
  exists instrs, v, more. repeat split.
  - unfold main. rewrite Hc, HT. simpl bind. rewrite E. reflexivity.
  - exact R.
  - exact Val.
  - intros Aa Am.
    destruct (proj1 (compiler_parse_render V constant add mul Aa Am) s Hs)
      as (op & Hop & Ev).
    rewrite HT in Hop. injection Hop as <-. rewrite Val, Ev. reflexivity.
Qed.

Lemma main_compiles_valid_expression_witness :
  exists block ret regs,
    main (py " 0.1 + 0.2 +0.3 ") = Return (block, ret)
    /\ run float (fun x => x) PrimFloat.add PrimFloat.mul [] block = Some regs
    /\ value_of float (fun x => x) regs ret
       = Some (evaluate float (fun x => x) PrimFloat.add PrimFloat.mul
                 (tree_of_sum three_tenths))
    /\ ((forall x y z, PrimFloat.add x (PrimFloat.add y z)
                       = PrimFloat.add (PrimFloat.add x y) z) ->
        (forall x y z, PrimFloat.mul x (PrimFloat.mul y z)
                       = PrimFloat.mul (PrimFloat.mul x y) z) ->
        value_of float (fun x => x) regs ret
        = Some (sum_value float (fun x => x) PrimFloat.add PrimFloat.mul three_tenths)).
Proof.
  apply (main_compiles_valid_expression float (fun x => x) PrimFloat.add PrimFloat.mul
           (py " 0.1 + 0.2 +0.3 ") three_tenths).
  - simpl. repeat split; right; [exists (py "0"), (py "1")|exists (py "0"), (py "2")
                                |exists (py "0"), (py "3")];
      repeat split; try (repeat constructor); discriminate.
  - vm_compute. reflexivity.
Defined.

(** X19: whitespace is dropped wherever it stands, also inside a literal:
    [main] does the same on an input with and without a run of whitespace
    characters in it, so [1 2] is the number twelve and not an error. *)
Theorem whitespace_is_ignored (before spaces after : list ascii) :
  Forall (fun c => Py.re_space c = true) spaces ->
  cleanup_input (before ++ spaces ++ after) = cleanup_input (before ++ after)
  /\ main (before ++ spaces ++ after) = main (before ++ after).
Proof.
  intros H.
  assert (E : cleanup_input (before ++ spaces ++ after) = cleanup_input (before ++ after)).
  { rewrite !cleanup_input_app, (cleanup_input_spaces _ H). reflexivity. }
  split; [exact E|]. unfold main. rewrite E. reflexivity.
Qed.

Lemma whitespace_is_ignored_witness :
  (cleanup_input (py "1" ++ [" "%char; "009"%char] ++ py "2") = cleanup_input (py "1" ++ py "2")
   /\ main (py "1" ++ [" "%char; "009"%char] ++ py "2") = main (py "1" ++ py "2"))
  /\ main (py "1" ++ py "2") = Return ([], Const 12).
Proof.
  split.
  - apply (whitespace_is_ignored (py "1") [" "%char; "009"%char] (py "2")).
    repeat constructor.
  - vm_compute. reflexivity.
Defined.
